(** * Retrieval-augmented question answering over a Pinecone index

    A shallow embedding of the pipeline module of the application
    (query orchestration, index creation, ingestion) together with the
    properties its specification states about it.

    The module is orchestration over three remote services (embeddings,
    vector index, completion).  Remote calls are modelled as events of a
    trace; what a service answers is given by an oracle that may depend on
    the whole history of calls made so far, so that a service may succeed
    or fail at any call.  [console.log] lines are instrumentation and are
    not part of the model. *)

From Stdlib Require Import Floats.PrimFloat Strings.Byte.
From stdpp Require Import base gmap list strings pretty.

Open Scope Z_scope.
Set Warnings "-clear-no-such-hyp".

(** ** JavaScript values *)

(** Values stored in metadata objects. *)
#[warnings="-register-all"]
Inductive JSValue :=
  | JUndefined
  | JString (s : string)
  | JNumber (n : Z)
  | JObject (fields : list (string * JSValue)).

(** Thrown values: the [TypeError]s raised by the platform and the errors
    of the remote services. *)
Inductive JSError :=
  | TypeError (msg : string)
  | ServiceError (msg : string).

(** A JavaScript object used as a string-keyed map. *)
Abbreviation JSObject := (gmap string JSValue).

(** [obj.key], [undefined] when the key is absent. *)
Definition getField (obj : JSObject) (key : string) : JSValue :=
  default JUndefined (obj !! key).

(** The line feed character matched by the pattern [/\n/]. *)
Definition LF : Ascii.ascii := Ascii.ascii_of_nat 10.

(** [s.replace(/\n/g, " ")]: every line feed becomes a space. *)
Fixpoint replaceNewlines (s : string) : string :=
  match s with
  | EmptyString => EmptyString
  | String c s' =>
      String (if Ascii.eqb c LF then Ascii.Space else c) (replaceNewlines s')
  end.

(** [strs.join(sep)]. *)
Fixpoint join (sep : string) (strs : list string) : string :=
  match strs with
  | [] => ""
  | [s] => s
  | s :: rest => s +:+ sep +:+ join sep rest
  end.

(** [existingIndexes.includes(name)] on an array of strings. *)
Definition includes (l : list string) (name : string) : bool :=
  existsb (String.eqb name) l.

(** ** Data model *)

Definition Embedding := list float.

(** A langchain [Document]: the input documents and the chunks made by the
    text splitter have this shape. *)
Record Document := {
  pageContent : string;
  metadata : JSObject;
}.

(** A record of the vector index.  [values] is [None] for the JavaScript
    [undefined] obtained by indexing the embeddings array out of range. *)
Record Vector := {
  id : string;
  values : option Embedding;
  vmetadata : JSObject;
}.

Record QueryRequest := {
  topK : Z;
  vector : Embedding;
  includeMetadata : bool;
  includeValues : bool;
}.

(** The metadata of a match carries the text of the stored chunk. *)
Record MatchMetadata := {
  m_pageContent : string;
  m_fields : JSObject;
}.

Record Match := {
  m_metadata : MatchMetadata;
  score : float;
}.

Record QueryResponse := {
  matches : list Match;
}.

Record CreateRequest := {
  name : string;
  dimension : Z;
  metric : string;
}.

(** ** The output stream

    The writable end of a [TransformStream] as the Streams standard
    defines it, for a consumer that keeps reading (so [writer.ready]
    settles).  [chunks] are the chunks accepted so far. *)

Inductive StreamState :=
  | Writable
  | Closed
  | Errored (e : JSError).

Record TransformStream := {
  chunks : list (list Byte.byte);
  state : StreamState;
}.

Inductive Result (A : Type) :=
  | Ok (a : A)
  | Throw (e : JSError).
Arguments Ok {A} a.
Arguments Throw {A} e.

(** Code that runs against the writer of one stream. *)
Definition Writer (A : Type) : Type := TransformStream → TransformStream * Result A.

Definition wbind {A B} (m : Writer A) (k : A → Writer B) : Writer B :=
  λ s, match m s with
       | (s', Ok a) => k a s'
       | (s', Throw e) => (s', Throw e)
       end.

Definition new_TransformStream : TransformStream :=
  {| chunks := []; state := Writable |}.

(** [await writer.ready]: rejects with the stored error of an errored
    stream, is fulfilled otherwise. *)
Definition writer_ready : Writer unit :=
  λ s, match state s with
       | Errored e => (s, Throw e)
       | _ => (s, Ok tt)
       end.

(** [await writer.write(chunk)]. *)
Definition writer_write (chunk : list Byte.byte) : Writer unit :=
  λ s, match state s with
       | Writable => ({| chunks := chunks s ++ [chunk]; state := Writable |}, Ok tt)
       | Closed => (s, Throw (TypeError "Cannot write to a closed stream"))
       | Errored e => (s, Throw e)
       end.

(** [await writer.close()]. *)
Definition writer_close : Writer unit :=
  λ s, match state s with
       | Writable => ({| chunks := chunks s; state := Closed |}, Ok tt)
       | _ => (s, Throw (TypeError "Cannot close a stream that is not writable"))
       end.

(** [await writer.abort(e)]: a stream that is already closed or errored
    is left as it is. *)
Definition writer_abort (e : JSError) : Writer unit :=
  λ s, match state s with
       | Writable => ({| chunks := chunks s; state := Errored e |}, Ok tt)
       | _ => (s, Ok tt)
       end.

(** [new TextEncoder().encode(str)]: strings are held as their UTF-8
    bytes, so encoding lists them. *)
Definition encode (str : string) : list Byte.byte := String.list_byte_of_string str.

(** The lifecycle callbacks handed to the completion client. *)
Record CallbackHandler := {
  cb_handleLLMNewToken : string → Writer unit;
  cb_handleLLMEnd : Writer unit;
  cb_handleLLMError : JSError → Writer unit;
}.

Record OpenAIParams := {
  modelName : string;
  temperature : float;
  maxTokens : Z;
  streaming : bool;
  callbacks : list CallbackHandler;
}.

(** ** Calls

    The calls to the services, to the text splitter and to the timer, in
    the order the module makes them. *)

Inductive Event :=
  | EmbedQuery (text : string)
  | IndexQuery (indexName : string) (queryRequest : QueryRequest)
  | ChainCall (llm : OpenAIParams) (input_documents : list Document) (question : string)
  | ListIndexes
  | CreateIndex (createRequest : CreateRequest)
  | SetTimeout (ms : Z)
  | CreateDocuments (chunkSize : Z) (texts : list string)
  | EmbedDocuments (texts : list string)
  | IndexUpsert (indexName : string) (vectors : list Vector).

Definition History := list Event.

(** An [async] computation: given the calls made before it started, the
    calls it makes and how it settles. *)
Definition Async (A : Type) : Type := History → list Event * Result A.

Definition ret {A} (a : A) : Async A := λ _, ([], Ok a).

Definition bind {A B} (m : Async A) (k : A → Async B) : Async B :=
  λ h, match m h with
       | (t1, Ok a) => let '(t2, r) := k a (h ++ t1) in (t1 ++ t2, r)
       | (t1, Throw e) => (t1, Throw e)
       end.

#[global] Instance Async_ret : MRet Async := @ret.
#[global] Instance Async_bind : MBind Async := λ A B k m, bind m k.

(** [await service(args)]: the call is recorded and the service answers
    from the history before the call. *)
Definition call {A} (ev : Event) (respond : History → Result A) : Async A :=
  λ h, ([ev], respond h).

(** A call whose promise is dropped: recorded, never awaited. *)
Definition detached (ev : Event) : Async unit := λ _, ([ev], Ok tt).

(** The services, as the module receives or imports them. *)
Record PineconeIndex := {
  query : History → QueryRequest → Result QueryResponse;
  upsert : History → list Vector → Result unit;
}.

Record PineconeClient := {
  Index : string → PineconeIndex;
  listIndexes : History → Result (list string);
  createIndex : History → CreateRequest → Result unit;
}.

Record OpenAIEmbeddings := {
  embedQuery : History → string → Result Embedding;
  embedDocuments : History → list string → Result (list Embedding);
}.

#[global] Instance Writer_bind : MBind Writer := λ A B k m, wbind m k.

(** Template-literal interpolation of a value. *)
Definition toString (v : JSValue) : string :=
  match v with
  | JUndefined => "undefined"
  | JString s => s
  | JNumber n => pretty n
  | JObject _ => "[object Object]"
  end.

(** Modelled from the spec: the configuration module ("../config") is not
    among the sources.  The specification lists what is supplied
    externally: index name, vector dimension, batch size and a debug flag;
    the pipeline imports [timeout], the delay in milliseconds given to a
    new index to initialise. *)
Record Config := {
  cfg_indexName : string;
  cfg_vectorDimension : Z;
  cfg_batchSize : Z;
  cfg_debug : bool;
  timeout : Z;
}.

(** ** The pipeline module *)

Section Pipeline.

(** [new RecursiveCharacterTextSplitter({chunkSize}).createDocuments(texts)]:
    the splitter of the langchain library, a function of its input. *)
Variable createDocuments : Z → list string → list Document.

(** [JSON.stringify]. *)
Variable JSON_stringify : JSValue → JSValue.

(** The embedding service behind [new OpenAIEmbeddings()]. *)
Variable embeddings : OpenAIEmbeddings.

(** The configuration module the pipeline imports [timeout] from. *)
Variable config : Config.

(** *** Query orchestration *)

Definition handleLLMNewToken (token : string) : Writer unit :=
  writer_ready ;; writer_write (encode (toString (JString token))).

Definition handleLLMEnd : Writer unit :=
  writer_ready ;; writer_close.

Definition handleLLMError (e : JSError) : Writer unit :=
  writer_ready ;; writer_abort e.

(** The text after the interpolated question in the augmented prompt:
    a space, a line break, the indentation of the source line and the
    condition. *)
Definition promptSuffix : string :=
  String Ascii.Space (String LF
    "                                Condition: End with a URL on where to find more information about the question, only if you know the answer.").

(** The [callbacks] array given to the completion client. *)
Definition streamCallbacks : list CallbackHandler :=
  [ {| cb_handleLLMNewToken := handleLLMNewToken;
       cb_handleLLMEnd := handleLLMEnd;
       cb_handleLLMError := handleLLMError |} ].

(** Returns the readable end of the stream the callbacks write to, or
    [None] for JavaScript's [undefined]. *)
#[warnings="-inexact-float"]
Definition queryPineconeVectorStoreAndQueryLLM
    (client : PineconeClient) (indexName : string) (question : string)
    : Async (option TransformStream) :=
  let index := Index client indexName in
  queryEmbedding ← call (EmbedQuery question) (λ h, embedQuery embeddings h question);
  let queryRequest :=
    {| topK := 10; vector := queryEmbedding;
       includeMetadata := true; includeValues := true |} in
  queryResponse ← call (IndexQuery indexName queryRequest)
                       (λ h, query index h queryRequest);
  if negb (bool_decide (length (matches queryResponse) = 0%nat)) then
    let stream := new_TransformStream in
    let llm :=
      {| modelName := "gpt-3.5-turbo";
         temperature := 0.9%float;
         maxTokens := 1024;
         streaming := true;
         callbacks := streamCallbacks |} in
    let concatenatedPageContent :=
      join " " (map (λ m, m_pageContent (m_metadata m)) (matches queryResponse)) in
    let augmentedQuestion := "Question: " +:+ question +:+ promptSuffix in
    detached (ChainCall llm
                [ {| pageContent := concatenatedPageContent; metadata := ∅ |} ]
                augmentedQuestion) ;;
    mret (Some stream)
  else
    mret None.

(** *** Index creation *)

Definition createPineconeIndex
    (client : PineconeClient) (indexName : string) (vectorDimension : Z)
    : Async unit :=
  existingIndexes ← call ListIndexes (listIndexes client);
  if negb (includes existingIndexes indexName) then
    let createRequest :=
      {| name := indexName; dimension := vectorDimension; metric := "cosine" |} in
    call (CreateIndex createRequest) (λ h, createIndex client h createRequest) ;;
    call (SetTimeout (timeout config)) (λ _, Ok tt)
  else
    mret tt.

(** *** Ingestion *)

Definition batchSize : Z := 10.

(** The vector record built for [chunks[idx]]. *)
Definition mkVector (txtPath : JSValue) (embeddingsArrays : list Embedding)
    (idx : nat) (chunk : Document) : Vector :=
  {| id := toString txtPath +:+ "_" +:+ pretty idx;
     values := embeddingsArrays !! idx;
     vmetadata :=
       <["txtPath" := txtPath]>
         (<["pageContent" := JString (pageContent chunk)]>
            (<["loc" := JSON_stringify (getField (metadata chunk) "loc")]>
               (metadata chunk))) |}.

(** The inner [for] loop: [rest] holds [chunks[idx..]], [batch] the
    vectors gathered since the last upsert. *)
Fixpoint upsertLoop (index : PineconeIndex) (indexName : string)
    (txtPath : JSValue) (chunks : list Document)
    (embeddingsArrays : list Embedding)
    (rest : list Document) (idx : nat) (batch : list Vector) : Async unit :=
  match rest with
  | [] => mret tt
  | chunk :: rest' =>
      let vector := mkVector txtPath embeddingsArrays idx chunk in
      let batch := batch ++ [vector] in
      if bool_decide (Z.of_nat (length batch) = batchSize)
         || bool_decide (Z.of_nat idx = Z.of_nat (length chunks) - 1)
      then
        call (IndexUpsert indexName batch) (λ h, upsert index h batch) ;;
        upsertLoop index indexName txtPath chunks embeddingsArrays rest' (S idx) []
      else
        upsertLoop index indexName txtPath chunks embeddingsArrays rest' (S idx) batch
  end.

(** The body of the loop over the documents. *)
Definition processDocument (index : PineconeIndex) (indexName : string)
    (doc : Document) : Async unit :=
  let txtPath := getField (metadata doc) "source" in
  let text := pageContent doc in
  chunks ← call (CreateDocuments 1000 [text]) (λ _, Ok (createDocuments 1000 [text]));
  let texts := map (λ chunk, replaceNewlines (pageContent chunk)) chunks in
  embeddingsArrays ← call (EmbedDocuments texts) (λ h, embedDocuments embeddings h texts);
  upsertLoop index indexName txtPath chunks embeddingsArrays chunks 0 [].

Fixpoint forEachDocument (index : PineconeIndex) (indexName : string)
    (docs : list Document) : Async unit :=
  match docs with
  | [] => mret tt
  | doc :: docs' =>
      processDocument index indexName doc ;;
      forEachDocument index indexName docs'
  end.

Definition updatePinecone (client : PineconeClient) (indexName : string)
    (docs : list Document) : Async unit :=
  let index := Index client indexName in
  forEachDocument index indexName docs.

End Pipeline.

(** ** The completion run

    The completion client reports a run through the lifecycle callbacks:
    one event per generated token, then the end of the run or its error.
    Each event is handed to the registered handlers in turn and awaited; a
    handler that rejects is logged by the client and the run goes on. *)

Inductive LLMEvent :=
  | LLMNewToken (token : string)
  | LLMEnd
  | LLMError (e : JSError).

Inductive Outcome :=
  | Finished
  | Failed (e : JSError).

Definition invoke (handler : CallbackHandler) (ev : LLMEvent) : Writer unit :=
  match ev with
  | LLMNewToken token => cb_handleLLMNewToken handler token
  | LLMEnd => cb_handleLLMEnd handler
  | LLMError e => cb_handleLLMError handler e
  end.

Definition deliver (handlers : list CallbackHandler) (s : TransformStream)
    (ev : LLMEvent) : TransformStream :=
  foldl (λ s handler, fst (invoke handler ev s)) s handlers.

Definition runCallbacks (handlers : list CallbackHandler)
    (evs : list LLMEvent) (s : TransformStream) : TransformStream :=
  foldl (deliver handlers) s evs.

(** The events of a run that generates [tokens] and ends with [outcome]. *)
Definition completionRun (tokens : list string) (outcome : Outcome) : list LLMEvent :=
  map LLMNewToken tokens ++
  [ match outcome with Finished => LLMEnd | Failed e => LLMError e end ].

(** ** Observations on traces *)

(** The batches of the upsert calls of a trace, in call order. *)
Definition upsertBatches (t : list Event) : list (list Vector) :=
  omap (λ ev, match ev with IndexUpsert _ vectors => Some vectors | _ => None end) t.

Definition upsertedVectors (t : list Event) : list Vector :=
  concat (upsertBatches t).

Definition upsertedIds (t : list Event) : list string :=
  map id (upsertedVectors t).

Definition isChainCall (ev : Event) : bool :=
  match ev with ChainCall _ _ _ => true | _ => false end.

Definition isCreateIndex (ev : Event) : bool :=
  match ev with CreateIndex _ => true | _ => false end.

(** The index as a store keyed by record id: an upsert inserts or
    overwrites. *)
Definition applyUpserts (t : list Event) (store : gmap string Vector) : gmap string Vector :=
  foldl (λ store v, <[id v := v]> store) store (upsertedVectors t).

(** Batches of [n] items: every batch but the last holds exactly [n]
    items, the last one between one and [n]. *)
Fixpoint batchedBy {A} (n : nat) (bs : list (list A)) : Prop :=
  match bs with
  | [] => True
  | [b] => (0 < length b ≤ n)%nat
  | b :: bs' => length b = n ∧ batchedBy n bs'
  end.

(** The vector records of the chunks [rest = chunks[idx..]]. *)
Definition vectorsFrom (JSON_stringify : JSValue → JSValue) (txtPath : JSValue)
    (embeddingsArrays : list Embedding) (idx : nat) (rest : list Document) : list Vector :=
  imap (λ i, mkVector JSON_stringify txtPath embeddingsArrays (idx + i)) rest.

(** The vector records of a document, in chunk order. *)
Definition vectorsOf (JSON_stringify : JSValue → JSValue) (txtPath : JSValue)
    (embeddingsArrays : list Embedding) (chunks : list Document) : list Vector :=
  imap (mkVector JSON_stringify txtPath embeddingsArrays) chunks.

(** The ids [s_0 .. s_{n-1}] of a document with source [s] split into [n]
    chunks. *)
Definition expectedIds (createDocuments : Z → list string → list Document)
    (doc : Document) : list string :=
  let s := toString (getField (metadata doc) "source") in
  let n := length (createDocuments 1000 [pageContent doc]) in
  map (λ i : nat, s +:+ "_" +:+ pretty i) (seq 0 n).

(** The number of calls of a trace that satisfy [p]. *)
Definition countCalls (p : Event → bool) (t : list Event) : nat :=
  length (List.filter p t).

Definition isEmbedDocuments (ev : Event) : bool :=
  match ev with EmbedDocuments _ => true | _ => false end.

Definition isIndexUpsert (ev : Event) : bool :=
  match ev with IndexUpsert _ _ => true | _ => false end.

(** The calls an ingestion into [indexName] may make: a split with chunk
    size 1000, an embedding of documents, an upsert into that index. *)
Definition isIngestionCall (indexName : string) (ev : Event) : Prop :=
  match ev with
  | CreateDocuments chunkSize _ => chunkSize = 1000
  | EmbedDocuments _ => True
  | IndexUpsert name _ => name = indexName
  | _ => False
  end.

(** The sizes of the batches into which [n] items go by [k]: full
    batches, then the remainder if there is one. *)
Definition batchLengths (n k : nat) : list nat :=
  replicate (n / k) k ++ (if (n mod k =? 0)%nat then [] else [(n mod k)%nat]).

(** The names of the indexes created by the calls of a history. *)
Definition createdIndexes (h : History) : list string :=
  omap (λ ev, match ev with CreateIndex req => Some (name req) | _ => None end) h.

(** The separator between source and chunk index in a record id. *)
Definition underscore : Ascii.ascii := Ascii.ascii_of_nat 95.

(** The service rejected the call [ev], made after the calls [h], with
    the error [e]: an embedding of documents that the embedding service
    rejected, or an upsert that the index rejected. *)
Definition rejected (embeddings : OpenAIEmbeddings) (index : PineconeIndex)
    (h : History) (ev : Event) (e : JSError) : Prop :=
  match ev with
  | EmbedDocuments texts => embedDocuments embeddings h texts = Throw e
  | IndexUpsert _ vectors => upsert index h vectors = Throw e
  | _ => False
  end.

(** The batch size as the specification words it, to be compared with
    the code: the batches of a document's upserts are batches of the size
    that the external configuration supplies. *)
Definition batchSizeFromConfig : Prop :=
  ∀ (config : Config) createDocuments JSON_stringify embeddings index indexName doc h t,
    processDocument createDocuments JSON_stringify embeddings index indexName doc h
    = (t, Ok tt) →
    batchedBy (Z.to_nat (cfg_batchSize config)) (upsertBatches t).

(** ** Concrete services and documents

    Instances of the services and of the library functions on which the
    pipeline is run in the examples below. *)

(** A splitter that makes one chunk per character of each text, located
    on line 1. *)
Definition charSplitter (chunkSize : Z) (texts : list string) : list Document :=
  flat_map (λ text,
    map (λ c, {| pageContent := String c "";
                 metadata := {[ "loc" := JObject [("lines",
                                  JObject [("from", JNumber 1); ("to", JNumber 1)])] ]} |})
        (String.list_ascii_of_string text)) texts.

Definition quoted (s : string) : string :=
  String (Ascii.ascii_of_nat 34) s +:+ String (Ascii.ascii_of_nat 34) "".

(** [JSON.stringify] on numbers, objects and strings that need no
    escaping; [undefined] stays [undefined]. *)
Fixpoint jsonText (v : JSValue) : string :=
  match v with
  | JUndefined => "null"
  | JString s => quoted s
  | JNumber n => pretty n
  | JObject fields =>
      "{" +:+ join "," (map (λ kv, quoted kv.1 +:+ ":" +:+ jsonText kv.2) fields) +:+ "}"
  end.

Definition stringify (v : JSValue) : JSValue :=
  match v with
  | JUndefined => JUndefined
  | _ => JString (jsonText v)
  end.

(** An embedding service that answers every call. *)
Definition okEmbeddings : OpenAIEmbeddings :=
  {| embedQuery := λ _ _, Ok [0.5%float];
     embedDocuments := λ _ texts, Ok (map (λ _, [0.5%float]) texts) |}.

(** An embedding service that rejects every call. *)
Definition downEmbeddings : OpenAIEmbeddings :=
  {| embedQuery := λ _ _, Throw (ServiceError "embeddings unavailable");
     embedDocuments := λ _ _, Throw (ServiceError "embeddings unavailable") |}.

(** An index that answers every query with [ms] and accepts every upsert. *)
Definition okIndex (ms : list Match) : PineconeIndex :=
  {| query := λ _ _, Ok {| matches := ms |};
     upsert := λ _ _, Ok tt |}.

(** An index that accepts the first upsert made and rejects the later
    ones. *)
Definition flakyIndex : PineconeIndex :=
  {| query := λ _ _, Ok {| matches := [] |};
     upsert := λ h _, match upsertBatches h with
                      | [] => Ok tt
                      | _ => Throw (ServiceError "upsert rejected")
                      end |}.

Definition okClient (existing : list string) (ms : list Match) : PineconeClient :=
  {| Index := λ _, okIndex ms;
     listIndexes := λ _, Ok existing;
     createIndex := λ _ _, Ok tt |}.

Definition flakyClient : PineconeClient :=
  {| Index := λ _, flakyIndex;
     listIndexes := λ _, Ok [];
     createIndex := λ _ _, Ok tt |}.

(** A client that lists the indexes created so far. *)
Definition registryClient : PineconeClient :=
  {| Index := λ _, okIndex [];
     listIndexes := λ h, Ok (createdIndexes h);
     createIndex := λ _ _, Ok tt |}.

(** An embedding service that answers with a single embedding, however
    many texts it is given. *)
Definition shortEmbeddings : OpenAIEmbeddings :=
  {| embedQuery := λ _ _, Ok [0.5%float];
     embedDocuments := λ _ _, Ok [[0.5%float]] |}.

(** An index whose queries are rejected. *)
Definition downIndex : PineconeIndex :=
  {| query := λ _ _, Throw (ServiceError "index unavailable");
     upsert := λ _ _, Throw (ServiceError "index unavailable") |}.

Definition downClient : PineconeClient :=
  {| Index := λ _, downIndex;
     listIndexes := λ _, Throw (ServiceError "index unavailable");
     createIndex := λ _ _, Throw (ServiceError "index unavailable") |}.

Definition textDocument (src text : string) : Document :=
  {| pageContent := text; metadata := {[ "source" := JString src ]} |}.

Definition matchOf (text : string) : Match :=
  {| m_metadata := {| m_pageContent := text; m_fields := ∅ |}; score := 0.5%float |}.

Definition exampleConfig : Config :=
  {| cfg_indexName := "docs"; cfg_vectorDimension := 1536; cfg_batchSize := 3;
     cfg_debug := false; timeout := 80000 |}.

(** ** The streaming callbacks *)

Section Streaming.

Lemma deliver_token (s : TransformStream) (token : string) :
  state s = Writable →
  deliver streamCallbacks s (LLMNewToken token)
  = {| chunks := chunks s ++ [encode token]; state := Writable |}.
Proof.
  intros Hs. destruct s as [cs st]; simpl in Hs; subst st. reflexivity.
Qed.

Lemma deliver_end (s : TransformStream) :
  state s = Writable →
  deliver streamCallbacks s LLMEnd = {| chunks := chunks s; state := Closed |}.
Proof.
  intros Hs. destruct s as [cs st]; simpl in Hs; subst st. reflexivity.
Qed.

Lemma deliver_error (s : TransformStream) (e : JSError) :
  state s = Writable →
  deliver streamCallbacks s (LLMError e) = {| chunks := chunks s; state := Errored e |}.
Proof.
  intros Hs. destruct s as [cs st]; simpl in Hs; subst st. reflexivity.
Qed.

(** A closed or errored stream is left untouched by every callback. *)
Lemma deliver_terminal (s : TransformStream) (ev : LLMEvent) :
  state s ≠ Writable → deliver streamCallbacks s ev = s.
Proof.
  intros Hs. destruct s as [cs [| |e]]; [done| |]; destruct ev; reflexivity.
Qed.

Lemma runCallbacks_terminal (evs : list LLMEvent) (s : TransformStream) :
  state s ≠ Writable → runCallbacks streamCallbacks evs s = s.
Proof.
  intros Hs. induction evs as [|ev evs IH]; [done|].
  unfold runCallbacks in *. cbn [foldl]. by rewrite deliver_terminal.
Qed.

Lemma runCallbacks_app (evs1 evs2 : list LLMEvent) (s : TransformStream) :
  runCallbacks streamCallbacks (evs1 ++ evs2) s
  = runCallbacks streamCallbacks evs2 (runCallbacks streamCallbacks evs1 s).
Proof. unfold runCallbacks. apply foldl_app. Qed.

Lemma runCallbacks_tokens (tokens : list string) (s : TransformStream) :
  state s = Writable →
  runCallbacks streamCallbacks (map LLMNewToken tokens) s
  = {| chunks := chunks s ++ map encode tokens; state := Writable |}.
Proof.
  revert s. induction tokens as [|token tokens IH]; intros s Hs.
  - simpl. rewrite app_nil_r. destruct s; simpl in *; by subst.
  - unfold runCallbacks in *. cbn [foldl map]. rewrite deliver_token by done.
    rewrite IH by done. cbn [chunks]. by rewrite <- app_assoc.
Qed.

Lemma runCallbacks_run (tokens : list string) (outcome : Outcome) :
  runCallbacks streamCallbacks (completionRun tokens outcome) new_TransformStream
  = {| chunks := map encode tokens;
       state := match outcome with Finished => Closed | Failed e => Errored e end |}.
Proof.
  unfold completionRun. rewrite runCallbacks_app, runCallbacks_tokens by done.
  destruct outcome; reflexivity.
Qed.

Lemma decode_encode (tokens : list string) :
  map String.string_of_list_byte (map encode tokens) = tokens.
Proof.
  induction tokens as [|token tokens IH]; [done|].
  simpl. unfold encode at 1. rewrite String.string_of_list_byte_of_string.
  by f_equal.
Qed.

(** C6: whatever tokens the completion service emits, the chunks written
    to the output stream are the encodings of exactly these tokens, in
    the order of emission, each once: while the run is going on and
    after it has ended, normally or not.  Decoding the chunks gives
    back the emitted sequence. *)
Theorem token_order_preserved (tokens : list string) :
  let written :=
    chunks (runCallbacks streamCallbacks (map LLMNewToken tokens) new_TransformStream) in
  written = map encode tokens
  ∧ map String.string_of_list_byte written = tokens
  ∧ ∀ outcome,
      chunks (runCallbacks streamCallbacks (completionRun tokens outcome)
                new_TransformStream) = written.
Proof.
  simpl. rewrite runCallbacks_tokens by done. simpl.
  split; [done|]. split; [apply decode_encode|].
  intros outcome. by rewrite runCallbacks_run.
Qed.

End Streaming.

(** ** Running asynchronous code *)

Section AsyncLemmas.

Context {A B : Type}.

Lemma bind_call (ev : Event) (respond : History → Result A)
    (k : A → Async B) (h : History) :
  (call ev respond ≫= k) h
  = match respond h with
    | Ok a => let '(t, r) := k a (h ++ [ev]) in (ev :: t, r)
    | Throw e => ([ev], Throw e)
    end.
Proof. unfold mbind, Async_bind, bind, call. by destruct (respond h). Qed.

(** A sequence settles with a value only if both parts do. *)
Lemma bind_Ok (m : Async A) (k : A → Async B) (h : History) t b :
  (m ≫= k) h = (t, Ok b) →
  ∃ t1 a t2, m h = (t1, Ok a) ∧ k a (h ++ t1) = (t2, Ok b) ∧ t = t1 ++ t2.
Proof.
  unfold mbind, Async_bind, bind. destruct (m h) as [t1 [a|e]]; [|done].
  destruct (k a (h ++ t1)) as [t2 r] eqn:Hk. intros [= <- ->]. by eauto 6.
Qed.

(** A sequence throws where its first part throws, or else where the
    second one does. *)
Lemma bind_Throw (m : Async A) (k : A → Async B) (h : History) t e :
  (m ≫= k) h = (t, Throw e) →
  m h = (t, Throw e)
  ∨ ∃ t1 a t2, m h = (t1, Ok a) ∧ k a (h ++ t1) = (t2, Throw e) ∧ t = t1 ++ t2.
Proof.
  unfold mbind, Async_bind, bind. destruct (m h) as [t1 [a|e']].
  - destruct (k a (h ++ t1)) as [t2 r] eqn:Hk. intros [= <- ->]. right. by eauto 6.
  - intros [= <- <-]. by left.
Qed.

Lemma bind_eq_Ok (m : Async A) (k : A → Async B) (h : History) t1 a :
  m h = (t1, Ok a) →
  (m ≫= k) h = (t1 ++ (k a (h ++ t1)).1, (k a (h ++ t1)).2).
Proof.
  intros Hm. unfold mbind, Async_bind, bind. rewrite Hm.
  by destruct (k a (h ++ t1)).
Qed.

Lemma bind_eq_Throw (m : Async A) (k : A → Async B) (h : History) t1 e :
  m h = (t1, Throw e) → (m ≫= k) h = (t1, Throw e).
Proof. intros Hm. unfold mbind, Async_bind, bind. by rewrite Hm. Qed.

End AsyncLemmas.

(** ** Query orchestration *)

Section Query.

Variable embeddings : OpenAIEmbeddings.
Variable client : PineconeClient.
Variable indexName question : string.

(** C1: when the index answers the query with no match, the function
    settles with [undefined] (it does not throw), and the calls it made
    are the embedding of the question and the index query: nothing is
    sent to the completion service. *)
Theorem no_matches_no_stream (h : History) queryEmbedding queryResponse :
  embedQuery embeddings h question = Ok queryEmbedding →
  query (Index client indexName) (h ++ [EmbedQuery question])
    {| topK := 10; vector := queryEmbedding;
       includeMetadata := true; includeValues := true |}
  = Ok queryResponse →
  matches queryResponse = [] →
  let '(t, r) := queryPineconeVectorStoreAndQueryLLM embeddings client indexName question h in
  r = Ok None
  ∧ t = [ EmbedQuery question;
          IndexQuery indexName
            {| topK := 10; vector := queryEmbedding;
               includeMetadata := true; includeValues := true |} ]
  ∧ Forall (λ ev, isChainCall ev = false) t.
Proof.
  intros Hembed Hquery Hnone. unfold queryPineconeVectorStoreAndQueryLLM.
  rewrite bind_call, Hembed, bind_call.
  rewrite Hquery, Hnone. simpl. repeat split; repeat constructor.
Qed.

(** C8: when the index answers with at least one match, the function
    embeds the question, queries the index for the 10 nearest vectors
    with their metadata, and calls the completion chain with one input
    document, whose text is the [pageContent] of all matches in the
    order returned, joined by single spaces, and with the question
    followed by the condition on the source URL.  It settles with the
    stream the callbacks write to. *)
Theorem matches_query_llm (h : History) queryEmbedding queryResponse :
  embedQuery embeddings h question = Ok queryEmbedding →
  query (Index client indexName) (h ++ [EmbedQuery question])
    {| topK := 10; vector := queryEmbedding;
       includeMetadata := true; includeValues := true |}
  = Ok queryResponse →
  matches queryResponse ≠ [] →
  ∃ llm,
    queryPineconeVectorStoreAndQueryLLM embeddings client indexName question h
    = ([ EmbedQuery question;
         IndexQuery indexName
           {| topK := 10; vector := queryEmbedding;
              includeMetadata := true; includeValues := true |};
         ChainCall llm
           [ {| pageContent :=
                  join " " (map (λ m, m_pageContent (m_metadata m))
                              (matches queryResponse));
                metadata := ∅ |} ]
           ("Question: " +:+ question +:+ String Ascii.Space (String LF
              "                                Condition: End with a URL on where to find more information about the question, only if you know the answer.")) ],
       Ok (Some new_TransformStream))
    ∧ modelName llm = "gpt-3.5-turbo"
    ∧ maxTokens llm = 1024
    ∧ streaming llm = true
    ∧ callbacks llm = streamCallbacks.
Proof.
  intros Hembed Hquery Hsome. unfold queryPineconeVectorStoreAndQueryLLM.
  eexists. rewrite bind_call, Hembed, bind_call.
  rewrite Hquery. destruct (matches queryResponse) as [|m ms] eqn:Hm; [done|].
  rewrite bool_decide_eq_false_2 by done. cbn [negb].
  split; [reflexivity|]. done.
Qed.

End Query.

(** A request that settles with a stream has made the chain call last,
    with the streaming callbacks, and its stream is a fresh one. *)
Lemma query_starts_streaming embeddings client indexName question h t stream :
  queryPineconeVectorStoreAndQueryLLM embeddings client indexName question h
  = (t, Ok (Some stream)) →
  stream = new_TransformStream
  ∧ ∃ t' llm docs prompt,
      t = t' ++ [ChainCall llm docs prompt]
      ∧ Forall (λ ev, isChainCall ev = false) t'
      ∧ callbacks llm = streamCallbacks.
Proof.
  unfold queryPineconeVectorStoreAndQueryLLM. rewrite bind_call.
  destruct (embedQuery embeddings h question) as [queryEmbedding|e]; [|done].
  rewrite bind_call.
  destruct (query (Index client indexName) _ _) as [queryResponse|e]; [|done].
  destruct (matches queryResponse) as [|m ms]; [done|].
  rewrite bool_decide_eq_false_2 by done. cbn [negb].
  intros [= <- <-]. split; [done|].
  eexists [_; _], _, _, _. split; [reflexivity|]. split; [|reflexivity].
  by repeat constructor.
Qed.

(** C7: a request that starts streaming makes one chain call, and the
    stream it returns is writable while the tokens of the completion run
    arrive; the end of the run takes it to exactly one terminal state:
    closed when the run ends normally, errored with the model's error
    when the run fails.  Whatever callbacks arrive afterwards leave the
    stream in that state with the same chunks. *)
Theorem stream_terminal_state embeddings client indexName question h t stream
    (tokens : list string) (outcome : Outcome) :
  queryPineconeVectorStoreAndQueryLLM embeddings client indexName question h
  = (t, Ok (Some stream)) →
  ∃ t' llm docs prompt,
    t = t' ++ [ChainCall llm docs prompt]
    ∧ Forall (λ ev, isChainCall ev = false) t'
    ∧ let final := runCallbacks (callbacks llm) (completionRun tokens outcome) stream in
      state (runCallbacks (callbacks llm) (map LLMNewToken tokens) stream) = Writable
      ∧ state final = match outcome with Finished => Closed | Failed e => Errored e end
      ∧ ∀ later,
          runCallbacks (callbacks llm) (completionRun tokens outcome ++ later) stream
          = final.
Proof.
  intros Hrun.
  apply query_starts_streaming in Hrun as (-> & t' & llm & docs & prompt & -> & Hpre & Hcb).
  exists t', llm, docs, prompt. split; [done|]. split; [done|].
  rewrite Hcb. simpl. rewrite runCallbacks_tokens by done. split; [done|].
  rewrite runCallbacks_run. split; [done|].
  intros later. rewrite runCallbacks_app, runCallbacks_run.
  apply runCallbacks_terminal. by destruct outcome.
Qed.

(** ** Index creation *)

Section CreateIndex.

Variable config : Config.
Variable client : PineconeClient.
Variable indexName : string.
Variable vectorDimension : Z.

Lemma includes_elem_of (l : list string) (x : string) :
  includes l x = true ↔ x ∈ l.
Proof.
  unfold includes. rewrite existsb_exists. split.
  - intros (y & Hy & Heq). apply String.eqb_eq in Heq. subst.
    by apply list_elem_of_In.
  - intros Hx. exists x. split; [by apply list_elem_of_In|apply String.eqb_refl].
Qed.

(** C5: once [listIndexes] has answered, [createIndex] is called if and
    only if the index name is not in the answer.  It is then called
    with the given name and dimension and the metric "cosine"; when the
    creation succeeds the function waits for the configured delay and
    returns.  When the name is in the answer, listing the indexes is
    the only call made: no creation, no wait. *)
Theorem create_index_iff_absent (h : History) (existingIndexes : list string) :
  listIndexes client h = Ok existingIndexes →
  let '(t, r) := createPineconeIndex config client indexName vectorDimension h in
  let createRequest :=
    {| name := indexName; dimension := vectorDimension; metric := "cosine" |} in
  ((∃ ev, ev ∈ t ∧ isCreateIndex ev = true) ↔ indexName ∉ existingIndexes)
  ∧ (indexName ∉ existingIndexes →
       match createIndex client (h ++ [ListIndexes]) createRequest with
       | Ok _ =>
           t = [ListIndexes; CreateIndex createRequest; SetTimeout (timeout config)]
           ∧ r = Ok tt
       | Throw e =>
           t = [ListIndexes; CreateIndex createRequest] ∧ r = Throw e
       end)
  ∧ (indexName ∈ existingIndexes → t = [ListIndexes] ∧ r = Ok tt).
Proof.
  intros Hlist. unfold createPineconeIndex. rewrite bind_call, Hlist.
  destruct (includes existingIndexes indexName) eqn:Hinc; cbn [negb].
  - apply includes_elem_of in Hinc. simpl. split; [|split; [done|done]].
    split; [|done]. intros (ev & Hev & Hc).
    apply list_elem_of_singleton in Hev. by subst.
  - assert (indexName ∉ existingIndexes) as Hnot.
    { intros Hin. apply includes_elem_of in Hin. congruence. }
    rewrite bind_call.
    destruct (createIndex client (h ++ [ListIndexes]) _) as [[]|e] eqn:Hcreate.
    + simpl. split; [|split; [done|done]].
      split; [done|]. intros _. eexists (CreateIndex _). split; [|reflexivity].
      apply list_elem_of_In. simpl. by eauto.
    + split; [|split; [done|done]].
      split; [done|]. intros _. eexists (CreateIndex _). split; [|reflexivity].
      apply list_elem_of_In. simpl. by eauto.
Qed.

End CreateIndex.

(** ** Ingestion *)

Section BatchedBy.

Context {A : Type}.

Lemma batchedBy_cons (n : nat) (b : list A) (bs : list (list A)) :
  (0 < length b ≤ n)%nat →
  (bs ≠ [] → length b = n) →
  batchedBy n bs →
  batchedBy n (b :: bs).
Proof. intros Hb Hfull Hbs. destruct bs as [|b' bs]; [done|]. split; auto. Qed.

Lemma batchedBy_Forall (n : nat) (bs : list (list A)) :
  batchedBy n bs → Forall (λ b, 0 < length b ≤ n)%nat bs.
Proof.
  induction bs as [|b bs IH]; [constructor|].
  destruct bs as [|b' bs].
  - intros Hb. constructor; [exact Hb|constructor].
  - intros [Hb Hbs]. constructor; [|by apply IH].
    specialize (IH Hbs). apply Forall_cons in IH as [Hb' _]. lia.
Qed.

(** The last batch is not empty, so it ends with the last item. *)
Lemma batchedBy_last (n : nat) (bs : list (list A)) :
  batchedBy n bs → bs ≠ [] →
  ∃ bs' b x, bs = bs' ++ [b] ∧ last b = Some x ∧ last (concat bs) = Some x.
Proof.
  intros Hbs Hne. apply batchedBy_Forall in Hbs.
  destruct (last bs) as [b|] eqn:Hb; [|by apply last_None in Hb].
  apply last_Some in Hb as [bs' ->].
  apply Forall_app in Hbs as [_ Hb]. apply Forall_inv in Hb.
  destruct (last b) as [x|] eqn:Hlast.
  - exists bs', b, x. split; [done|]. split; [done|].
    rewrite concat_app. simpl. rewrite app_nil_r.
    apply last_Some in Hlast as [b' ->]. rewrite app_assoc. apply last_snoc.
  - apply last_None in Hlast. subst b. simpl in Hb. lia.
Qed.

End BatchedBy.

Section UpsertLoop.

Variable JSON_stringify : JSValue → JSValue.
Variable index : PineconeIndex.
Variable indexName : string.
Variable txtPath : JSValue.
Variable chunks : list Document.
Variable embeddingsArrays : list Embedding.

Local Abbreviation loop := (upsertLoop JSON_stringify index indexName txtPath chunks embeddingsArrays).
Local Abbreviation vectors := (vectorsFrom JSON_stringify txtPath embeddingsArrays).

Lemma vectorsFrom_cons (idx : nat) (chunk : Document) (rest : list Document) :
  vectors idx (chunk :: rest)
  = mkVector JSON_stringify txtPath embeddingsArrays idx chunk :: vectors (S idx) rest.
Proof.
  unfold vectorsFrom. rewrite imap_cons. f_equal; [by rewrite Nat.add_0_r|].
  apply imap_ext. intros i c _. simpl. f_equal. lia.
Qed.

Lemma upsertBatches_upserts (bs : list (list Vector)) :
  upsertBatches (map (IndexUpsert indexName) bs) = bs.
Proof. unfold upsertBatches. induction bs as [|b bs IH]; [done|]. simpl. by f_equal. Qed.

Lemma upsertBatches_app (t1 t2 : list Event) :
  upsertBatches (t1 ++ t2) = upsertBatches t1 ++ upsertBatches t2.
Proof. apply omap_app. Qed.

Lemma upsertBatches_document text texts (bs : list (list Vector)) :
  upsertBatches (CreateDocuments 1000 [text] :: EmbedDocuments texts
                   :: map (IndexUpsert indexName) bs) = bs.
Proof. apply upsertBatches_upserts. Qed.

(** The loop invariant, for runs in which every upsert succeeds: the
    upserts made from [idx] on are batches of [batchSize] whose
    concatenation is the pending batch followed by the records of the
    remaining chunks. *)
Lemma upsertLoop_Ok (rest : list Document) :
  ∀ (idx : nat) (batch : list Vector) (h : History) t,
    (idx + length rest = length chunks)%nat →
    (length batch < Z.to_nat batchSize)%nat →
    (rest = [] → batch = []) →
    loop rest idx batch h = (t, Ok tt) →
    ∃ bs, t = map (IndexUpsert indexName) bs
          ∧ concat bs = batch ++ vectors idx rest
          ∧ batchedBy (Z.to_nat batchSize) bs.
Proof.
  induction rest as [|chunk rest IH]; intros idx batch h t Hidx Hlen Hnil Hrun.
  { rewrite (Hnil eq_refl) in *. injection Hrun as <-. by exists []. }
  rewrite vectorsFrom_cons. cbn [upsertLoop] in Hrun.
  set (vector := mkVector JSON_stringify txtPath embeddingsArrays idx chunk) in *.
  assert (length (batch ++ [vector]) = S (length batch)) as Hlen'.
  { rewrite length_app. simpl. lia. }
  unfold batchSize in *.
  destruct (bool_decide (Z.of_nat (length (batch ++ [vector])) = 10)
            || bool_decide (Z.of_nat idx = Z.of_nat (length chunks) - 1)) eqn:Hflush.
  - rewrite bind_call in Hrun.
    destruct (upsert index h (batch ++ [vector])) as [[]|e]; [|done].
    destruct (loop rest (S idx) [] _) as [t' r] eqn:Hrest.
    injection Hrun as <- ->.
    apply IH in Hrest as (bs & -> & Hcat & Hbs);
      [|simpl in Hidx; lia|simpl; lia|done].
    exists ((batch ++ [vector]) :: bs). split; [done|]. split.
    + simpl. rewrite Hcat. simpl. by rewrite <- app_assoc.
    + apply batchedBy_cons; [lia| |done].
      intros Hbs'. apply orb_true_iff in Hflush as [Hfull|Hlast].
      * apply bool_decide_eq_true in Hfull. lia.
      * apply bool_decide_eq_true in Hlast.
        destruct rest; [|simpl in Hidx; lia].
        simpl in Hcat. destruct bs as [|b bs]; [done|].
        apply batchedBy_Forall, Forall_cons in Hbs as [Hb _].
        simpl in Hcat. apply app_eq_nil in Hcat as [-> _]. simpl in Hb. lia.
  - apply orb_false_iff in Hflush as [Hfull Hlast].
    apply bool_decide_eq_false in Hfull. apply bool_decide_eq_false in Hlast.
    apply IH in Hrun as (bs & -> & Hcat & Hbs).
    + exists bs. split; [done|]. split; [|done]. by rewrite Hcat, <- app_assoc.
    + simpl in Hidx. lia.
    + lia.
    + intros ->. simpl in Hidx. lia.
Qed.

(** A run of the loop that throws stops at an upsert the index rejected:
    that upsert is the last call made, and the error thrown is the
    index's. *)
Lemma upsertLoop_Throw (rest : list Document) :
  ∀ (idx : nat) (batch : list Vector) (h : History) t e,
    loop rest idx batch h = (t, Throw e) →
    ∃ t' b, t = t' ++ [IndexUpsert indexName b] ∧ upsert index (h ++ t') b = Throw e.
Proof.
  induction rest as [|chunk rest IH]; intros idx batch h t e Hrun; [done|].
  cbn [upsertLoop] in Hrun.
  destruct (_ || _).
  - rewrite bind_call in Hrun.
    destruct (upsert index h _) as [[]|e'] eqn:Hupsert.
    + destruct (loop rest (S idx) [] _) as [t' r] eqn:Hrest.
      injection Hrun as <- ->.
      apply IH in Hrest as (t'' & b & -> & Hb).
      exists (IndexUpsert indexName (batch ++ [mkVector JSON_stringify txtPath
                embeddingsArrays idx chunk]) :: t''), b.
      split; [done|]. by rewrite <- app_assoc in Hb.
    + injection Hrun as <- <-. eexists [], _. split; [done|]. by rewrite app_nil_r.
  - by eapply IH.
Qed.

(** Whether or not an upsert fails, the batches the loop sends hold
    between one and [batchSize] vectors. *)
Lemma upsertLoop_bounded (rest : list Document) :
  ∀ (idx : nat) (batch : list Vector) (h : History),
    (length batch < Z.to_nat batchSize)%nat →
    ∃ bs, (loop rest idx batch h).1 = map (IndexUpsert indexName) bs
          ∧ Forall (λ b, 0 < length b ≤ Z.to_nat batchSize)%nat bs.
Proof.
  induction rest as [|chunk rest IH]; intros idx batch h Hlen.
  { by exists []. }
  cbn [upsertLoop].
  set (vector := mkVector JSON_stringify txtPath embeddingsArrays idx chunk).
  assert (length (batch ++ [vector]) = S (length batch)) as Hlen'.
  { rewrite length_app. simpl. lia. }
  unfold batchSize in *.
  destruct (bool_decide (Z.of_nat (length (batch ++ [vector])) = 10)
            || bool_decide (Z.of_nat idx = Z.of_nat (length chunks) - 1)) eqn:Hflush.
  - rewrite bind_call. destruct (upsert index h (batch ++ [vector])) as [[]|e].
    + destruct (IH (S idx) [] (h ++ [IndexUpsert indexName (batch ++ [vector])]))
        as (bs & Hbs & Hall); [simpl; lia|].
      destruct (loop rest (S idx) [] _) as [t' r]. simpl in Hbs. subst t'.
      exists ((batch ++ [vector]) :: bs). split; [done|].
      constructor; [lia|done].
    + exists [batch ++ [vector]]. split; [done|]. constructor; [lia|constructor].
  - apply orb_false_iff in Hflush as [Hfull _].
    apply bool_decide_eq_false in Hfull. apply IH. lia.
Qed.

End UpsertLoop.

Section Ingestion.

Variable createDocuments : Z → list string → list Document.
Variable JSON_stringify : JSValue → JSValue.

Local Abbreviation process := (processDocument createDocuments JSON_stringify).
Local Abbreviation forEach := (forEachDocument createDocuments JSON_stringify).
Local Abbreviation chunksOf doc := (createDocuments 1000 [pageContent doc]).
Local Abbreviation textsOf doc :=
  (map (λ chunk, replaceNewlines (pageContent chunk)) (chunksOf doc)).

Lemma vectorsFrom_0 txtPath embeddingsArrays chunks :
  vectorsFrom JSON_stringify txtPath embeddingsArrays 0 chunks
  = vectorsOf JSON_stringify txtPath embeddingsArrays chunks.
Proof. reflexivity. Qed.

(** What a document's processing does when nothing fails: the split,
    one embedding call for all chunks, then the upserts. *)
Lemma processDocument_Ok embeddings index indexName doc h t :
  process embeddings index indexName doc h = (t, Ok tt) →
  ∃ embeddingsArrays bs,
    embedDocuments embeddings (h ++ [CreateDocuments 1000 [pageContent doc]]) (textsOf doc)
    = Ok embeddingsArrays
    ∧ t = CreateDocuments 1000 [pageContent doc]
          :: EmbedDocuments (textsOf doc)
          :: map (IndexUpsert indexName) bs
    ∧ concat bs = vectorsOf JSON_stringify (getField (metadata doc) "source")
                    embeddingsArrays (chunksOf doc)
    ∧ batchedBy (Z.to_nat batchSize) bs.
Proof.
  unfold processDocument. rewrite bind_call, bind_call.
  destruct (embedDocuments embeddings _ _) as [embeddingsArrays|e]; [|done].
  destruct (upsertLoop _ _ _ _ _ _ _ _ _ _) as [t' r] eqn:Hloop.
  intros [= <- ->].
  apply upsertLoop_Ok in Hloop as (bs & -> & Hcat & Hbs);
    [|done|unfold batchSize; simpl; lia|done].
  exists embeddingsArrays, bs. by rewrite <- vectorsFrom_0.
Qed.

(** A document's processing that throws stops at the call a service
    rejected, the embedding call or an upsert: that call is the last
    one made, and the error thrown is the service's. *)
Lemma processDocument_Throw embeddings index indexName doc h t e :
  process embeddings index indexName doc h = (t, Throw e) →
  ∃ t' ev,
    t = t' ++ [ev]
    ∧ ((ev = EmbedDocuments (textsOf doc)
        ∧ embedDocuments embeddings (h ++ t') (textsOf doc) = Throw e)
       ∨ (∃ batch, ev = IndexUpsert indexName batch
                   ∧ upsert index (h ++ t') batch = Throw e)).
Proof.
  unfold processDocument. rewrite bind_call, bind_call.
  destruct (embedDocuments embeddings _ _) as [embeddingsArrays|e'] eqn:Hembed.
  - destruct (upsertLoop _ _ _ _ _ _ _ _ _ _) as [t' r] eqn:Hloop.
    intros [= <- ->].
    apply upsertLoop_Throw in Hloop as (t'' & batch & -> & Hbatch).
    exists (CreateDocuments 1000 [pageContent doc] :: EmbedDocuments (textsOf doc) :: t''),
      (IndexUpsert indexName batch).
    split; [done|]. right. exists batch. split; [done|].
    by rewrite <- !app_assoc in Hbatch.
  - intros [= <- <-].
    exists [CreateDocuments 1000 [pageContent doc]], (EmbedDocuments (textsOf doc)).
    split; [done|]. by left.
Qed.

Lemma forEachDocument_cons embeddings index indexName doc docs h t :
  forEach embeddings index indexName (doc :: docs) h = (t, Ok tt) →
  ∃ t1 t2,
    process embeddings index indexName doc h = (t1, Ok tt)
    ∧ forEach embeddings index indexName docs (h ++ t1) = (t2, Ok tt)
    ∧ t = t1 ++ t2.
Proof.
  cbn [forEachDocument]. intros Hrun.
  apply bind_Ok in Hrun as (t1 & [] & t2 & H1 & H2 & ->). by eauto.
Qed.

Lemma forEachDocument_app embeddings index indexName pre post h t :
  forEach embeddings index indexName (pre ++ post) h = (t, Ok tt) →
  ∃ t1 t2,
    forEach embeddings index indexName pre h = (t1, Ok tt)
    ∧ forEach embeddings index indexName post (h ++ t1) = (t2, Ok tt)
    ∧ t = t1 ++ t2.
Proof.
  revert h t. induction pre as [|doc pre IH]; intros h t Hrun.
  - exists [], t. by rewrite app_nil_r.
  - rewrite <- app_comm_cons in Hrun.
    apply forEachDocument_cons in Hrun as (ta & tb & Ha & Hb & ->).
    apply IH in Hb as (tb1 & tb2 & Hb1 & Hb2 & ->).
    exists (ta ++ tb1), tb2. split; [|split].
    + cbn [forEachDocument]. erewrite bind_eq_Ok by done. by rewrite Hb1.
    + by rewrite app_assoc.
    + by rewrite app_assoc.
Qed.

(** Once a document's processing throws, the loop over the documents is
    left: the calls made are those made up to the throw. *)
Lemma forEachDocument_Throw embeddings index indexName pre doc post h t1 t2 e :
  forEach embeddings index indexName pre h = (t1, Ok tt) →
  process embeddings index indexName doc (h ++ t1) = (t2, Throw e) →
  forEach embeddings index indexName (pre ++ doc :: post) h = (t1 ++ t2, Throw e).
Proof.
  revert h t1. induction pre as [|doc' pre IH]; intros h t1 Hpre Hdoc.
  - injection Hpre as <-. rewrite app_nil_r in Hdoc.
    simpl. by erewrite bind_eq_Throw.
  - apply forEachDocument_cons in Hpre as (ta & tb & Ha & Hb & ->).
    rewrite app_assoc in Hdoc.
    rewrite <- app_comm_cons. cbn [forEachDocument].
    erewrite bind_eq_Ok by done. erewrite IH by done. cbn [fst snd].
    by rewrite app_assoc.
Qed.

Lemma processDocument_bounded embeddings index indexName doc h :
  Forall (λ b, 0 < length b ≤ Z.to_nat batchSize)%nat
    (upsertBatches (process embeddings index indexName doc h).1).
Proof.
  unfold processDocument. rewrite bind_call, bind_call.
  destruct (embedDocuments embeddings _ _) as [embeddingsArrays|e]; [|constructor].
  match goal with
  | |- context [upsertLoop ?js ?ix ?nm ?tp ?cs ?es ?rest ?i ?b ?h'] =>
      destruct (upsertLoop_bounded js ix nm tp cs es rest i b h') as (bs & Hbs & Hall);
        [unfold batchSize; simpl; lia|];
      destruct (upsertLoop js ix nm tp cs es rest i b h') as [t' r]
  end.
  simpl in Hbs. subst t'. cbn [fst]. by rewrite upsertBatches_document.
Qed.

Lemma forEachDocument_bounded embeddings index indexName docs :
  ∀ h, Forall (λ b, 0 < length b ≤ Z.to_nat batchSize)%nat
         (upsertBatches (forEach embeddings index indexName docs h).1).
Proof.
  induction docs as [|doc docs IH]; intros h; [constructor|].
  cbn [forEachDocument].
  pose proof (processDocument_bounded embeddings index indexName doc h) as Hdoc.
  destruct (process embeddings index indexName doc h) as [t1 [[]|e]] eqn:Hrun.
  - erewrite bind_eq_Ok by done. cbn [fst]. rewrite upsertBatches_app.
    apply Forall_app. split; [done|apply IH].
  - by erewrite bind_eq_Throw.
Qed.

(** The calls of a document's processing, whether it completes or not:
    the split, the embedding call, then upserts into the given index. *)
Lemma processDocument_calls embeddings index indexName doc h :
  ∃ bs,
    (processDocument createDocuments JSON_stringify embeddings index indexName doc h).1
    = CreateDocuments 1000 [pageContent doc]
        :: EmbedDocuments (map (λ chunk, replaceNewlines (pageContent chunk))
                             (createDocuments 1000 [pageContent doc]))
        :: map (IndexUpsert indexName) bs.
Proof.
  unfold processDocument. rewrite bind_call, bind_call.
  destruct (embedDocuments embeddings _ _) as [embeddingsArrays|e]; [|by exists []].
  match goal with
  | |- context [upsertLoop ?js ?ix ?nm ?tp ?cs ?es ?rest ?i ?b ?h'] =>
      destruct (upsertLoop_bounded js ix nm tp cs es rest i b h') as (bs & Hbs & _);
        [unfold batchSize; simpl; lia|];
      destruct (upsertLoop js ix nm tp cs es rest i b h') as [t' r]
  end.
  simpl in Hbs. subst t'. by exists bs.
Qed.

End Ingestion.

Section IngestionProperties.

Variable createDocuments : Z → list string → list Document.
Variable JSON_stringify : JSValue → JSValue.

Local Abbreviation chunksOf doc := (createDocuments 1000 [pageContent doc]).
Local Abbreviation textsOf doc :=
  (map (λ chunk, replaceNewlines (pageContent chunk)) (chunksOf doc)).

Lemma upsertedIds_app (t1 t2 : list Event) :
  upsertedIds (t1 ++ t2) = upsertedIds t1 ++ upsertedIds t2.
Proof.
  unfold upsertedIds, upsertedVectors.
  by rewrite upsertBatches_app, concat_app, map_app.
Qed.

Lemma vectorsFrom_ids txtPath embeddingsArrays (rest : list Document) :
  ∀ idx,
    map id (vectorsFrom JSON_stringify txtPath embeddingsArrays idx rest)
    = map (λ i : nat, toString txtPath +:+ "_" +:+ pretty i) (seq idx (length rest)).
Proof.
  induction rest as [|chunk rest IH]; intros idx; [done|].
  rewrite vectorsFrom_cons. simpl. by rewrite IH.
Qed.

Lemma updatePinecone_ids embeddings client indexName docs :
  ∀ h t,
    updatePinecone createDocuments JSON_stringify embeddings client indexName docs h = (t, Ok tt) →
    upsertedIds t = flat_map (expectedIds createDocuments) docs.
Proof.
  unfold updatePinecone.
  induction docs as [|doc docs IH]; intros h t Hrun.
  - by injection Hrun as <-.
  - apply forEachDocument_cons in Hrun as (t1 & t2 & Hdoc & Hrest & ->).
    apply processDocument_Ok in Hdoc as (embs & bs & _ & -> & Hcat & _).
    rewrite upsertedIds_app. simpl. rewrite (IH _ _ Hrest). f_equal.
    unfold upsertedIds, upsertedVectors. rewrite upsertBatches_document, Hcat.
    apply (vectorsFrom_ids _ _ _ 0%nat).
Qed.

Lemma applyUpserts_dom (t : list Event) (store : gmap string Vector) :
  dom (applyUpserts t store) = dom store ∪ list_to_set (upsertedIds t).
Proof.
  unfold applyUpserts, upsertedIds.
  generalize (upsertedVectors t) as vs. intros vs. revert store.
  induction vs as [|v vs IH]; intros store; simpl.
  - set_solver.
  - rewrite IH, dom_insert_L. set_solver.
Qed.

(** C2: two complete ingestions of the same documents, whatever the
    services answer in each, upsert records under the same ids: for
    every document, in order, [s_0 .. s_{n-1}] where [s] is its source
    and [n] the number of its chunks.  So the second ingestion adds no
    id to an index that went through the first: it overwrites. *)
Theorem reingestion_same_ids embeddings1 embeddings2 client1 client2
    indexName docs h1 h2 t1 t2 :
  updatePinecone createDocuments JSON_stringify embeddings1 client1 indexName docs h1 = (t1, Ok tt) →
  updatePinecone createDocuments JSON_stringify embeddings2 client2 indexName docs h2 = (t2, Ok tt) →
  upsertedIds t1 = flat_map (expectedIds createDocuments) docs
  ∧ upsertedIds t2 = upsertedIds t1
  ∧ ∀ store : gmap string Vector,
      dom (applyUpserts t2 (applyUpserts t1 store)) = dom (applyUpserts t1 store).
Proof.
  intros Hrun1 Hrun2.
  apply updatePinecone_ids in Hrun1, Hrun2.
  split; [done|]. split; [congruence|].
  intros store. rewrite !applyUpserts_dom, Hrun2, Hrun1. set_solver.
Qed.

(** C3: every upsert that an ingestion makes, whether it completes or
    not, holds between one and [batchSize] vectors.  In a complete
    ingestion, the upserts made for a document have as concatenation
    the sequence of the document's vector records in chunk order, and,
    when the document has a chunk, the last call made for it is the
    upsert of the batch that ends with the record of its last chunk. *)
Theorem batches_bounded_and_complete embeddings client indexName pre doc post h t :
  Forall (λ batch, 0 < Z.of_nat (length batch) ≤ batchSize)
    (upsertBatches (updatePinecone createDocuments JSON_stringify embeddings client indexName (pre ++ doc :: post) h).1)
  ∧ (updatePinecone createDocuments JSON_stringify embeddings client indexName (pre ++ doc :: post) h = (t, Ok tt) →
     ∃ t1 t2 t3 embeddingsArrays,
       t = t1 ++ t2 ++ t3
       ∧ updatePinecone createDocuments JSON_stringify embeddings client indexName pre h = (t1, Ok tt)
       ∧ processDocument createDocuments JSON_stringify embeddings (Index client indexName) indexName doc (h ++ t1) = (t2, Ok tt)
       ∧ embedDocuments embeddings (h ++ t1 ++ [CreateDocuments 1000 [pageContent doc]])
           (textsOf doc) = Ok embeddingsArrays
       ∧ let vectors :=
           vectorsOf JSON_stringify (getField (metadata doc) "source")
             embeddingsArrays (chunksOf doc) in
         concat (upsertBatches t2) = vectors
         ∧ (chunksOf doc ≠ [] →
            ∃ t' batch v,
              t2 = t' ++ [IndexUpsert indexName batch]
              ∧ last batch = Some v ∧ last vectors = Some v)).
Proof.
  unfold updatePinecone. split.
  { eapply Forall_impl; [apply forEachDocument_bounded|].
    unfold batchSize. intros batch. simpl. lia. }
  intros Hrun.
  apply forEachDocument_app in Hrun as (t1 & t23 & Hpre & Hrun & ->).
  apply forEachDocument_cons in Hrun as (t2 & t3 & Hdoc & Hpost & ->).
  exists t1, t2, t3.
  destruct (processDocument_Ok _ _ _ _ _ _ _ _ Hdoc)
    as (embs & bs & Hembed & -> & Hcat & Hbs).
  exists embs. split; [done|]. split; [done|]. split; [done|].
  split; [by rewrite app_assoc|].
  rewrite upsertBatches_document. split; [done|].
  - intros Hchunks.
    destruct (batchedBy_last _ bs Hbs) as (bs' & batch & v & -> & Hlast & Hv).
    { intros ->. simpl in Hcat. symmetry in Hcat.
      apply (f_equal length) in Hcat. unfold vectorsOf in Hcat.
      rewrite length_imap in Hcat. by destruct (chunksOf doc). }
    exists (CreateDocuments 1000 [pageContent doc] :: EmbedDocuments (textsOf doc)
              :: map (IndexUpsert indexName) bs'), batch, v.
    rewrite map_app. split; [done|]. split; [done|]. by rewrite <- Hcat.
Qed.

Lemma replaceNewlines_chars (s : string) :
  String.list_ascii_of_string (replaceNewlines s)
  = map (λ c, if Ascii.eqb c LF then Ascii.Space else c) (String.list_ascii_of_string s).
Proof. induction s as [|c s IH]; [done|]. simpl. by rewrite IH. Qed.

Lemma mkVector_pageContent txtPath embeddingsArrays idx chunk :
  vmetadata (mkVector JSON_stringify txtPath embeddingsArrays idx chunk) !! "pageContent"
  = Some (JString (pageContent chunk)).
Proof. unfold mkVector. simpl. by simplify_map_eq. Qed.

Lemma vectorsFrom_pageContent txtPath embeddingsArrays (rest : list Document) :
  ∀ idx,
    Forall2 (λ chunk v, vmetadata v !! "pageContent" = Some (JString (pageContent chunk)))
      rest (vectorsFrom JSON_stringify txtPath embeddingsArrays idx rest).
Proof.
  induction rest as [|chunk rest IH]; intros idx; [constructor|].
  rewrite vectorsFrom_cons. constructor; [apply mkVector_pageContent|apply IH].
Qed.

(** C10: when a document is processed, the texts sent to the embedding
    service are the chunks' [pageContent] in which every line feed has
    become a space (every other character is kept), while each vector
    record upserted carries under [pageContent] the text of its chunk
    as the splitter made it.  For a chunk that holds a line feed the
    two texts differ. *)
Theorem embedded_text_differs_from_stored embeddings index indexName doc h t :
  processDocument createDocuments JSON_stringify embeddings index indexName doc h = (t, Ok tt) →
  (∃ t', t = CreateDocuments 1000 [pageContent doc]
             :: EmbedDocuments (textsOf doc) :: t')
  ∧ Forall2 (λ chunk text,
               String.list_ascii_of_string text
               = map (λ c, if Ascii.eqb c LF then Ascii.Space else c)
                   (String.list_ascii_of_string (pageContent chunk)))
      (chunksOf doc) (textsOf doc)
  ∧ Forall2 (λ chunk v, vmetadata v !! "pageContent" = Some (JString (pageContent chunk)))
      (chunksOf doc) (upsertedVectors t)
  ∧ ∀ chunk, chunk ∈ chunksOf doc →
      LF ∈ String.list_ascii_of_string (pageContent chunk) →
      replaceNewlines (pageContent chunk) ≠ pageContent chunk.
Proof.
  intros Hrun.
  apply processDocument_Ok in Hrun as (embs & bs & _ & -> & Hcat & _).
  split; [by eauto|]. split; [|split].
  - clear Hcat. induction (chunksOf doc) as [|chunk chunks IH]; [constructor|].
    simpl. constructor; [apply replaceNewlines_chars|apply IH].
  - unfold upsertedVectors. rewrite upsertBatches_document, Hcat.
    apply (vectorsFrom_pageContent _ _ _ 0%nat).
  - intros chunk _ Hin Heq. apply (f_equal String.list_ascii_of_string) in Heq.
    rewrite replaceNewlines_chars in Heq. rewrite <- Heq in Hin.
    apply list_elem_of_In, in_map_iff in Hin as (c & Hc & _).
    destruct (Ascii.eqb c LF) eqn:Hlf; [done|].
    subst c. by rewrite Ascii.eqb_refl in Hlf.
Qed.

(** C9 (amended): the batch size is the constant 10 fixed in the
    ingestion code, which takes nothing from the configuration: the
    upserts made for a document are batches of 10, that is, every batch
    but the last holds exactly 10 vectors and the last one between 1 and
    10. *)
Theorem batch_size_is_constant embeddings index indexName doc h t :
  processDocument createDocuments JSON_stringify embeddings index indexName doc h = (t, Ok tt) →
  batchSize = 10 ∧ batchedBy 10 (upsertBatches t).
Proof.
  intros Hrun. split; [done|].
  apply processDocument_Ok in Hrun as (embs & bs & _ & -> & _ & Hbs).
  by rewrite upsertBatches_document.
Qed.

End IngestionProperties.

(** *** Rejected calls *)

Section Rejection.

Variable createDocuments : Z → list string → list Document.
Variable JSON_stringify : JSValue → JSValue.
Variable embeddings : OpenAIEmbeddings.

(** An upsert that the index rejects is the last call of the loop, and
    the loop throws the index's error. *)
Lemma upsertLoop_rejected index indexName txtPath chunks embeddingsArrays rest :
  ∀ idx batch h t r t' ev t'' e,
    upsertLoop JSON_stringify index indexName txtPath chunks embeddingsArrays
      rest idx batch h = (t, r) →
    t = t' ++ ev :: t'' →
    rejected embeddings index (h ++ t') ev e →
    t'' = [] ∧ r = Throw e.
Proof.
  induction rest as [|chunk rest IH]; intros idx batch h t r t' ev t'' e Hrun Hsplit Hrej.
  { injection Hrun as <- <-. by destruct t'. }
  cbn [upsertLoop] in Hrun. destruct (_ || _).
  - rewrite bind_call in Hrun.
    destruct (upsert index h _) as [[]|e0] eqn:Hupsert.
    + destruct (upsertLoop _ _ _ _ _ _ rest (S idx) [] _) as [tl r'] eqn:Hrest.
      injection Hrun as <- <-.
      destruct t' as [|x t']; simpl in Hsplit; injection Hsplit as <- Htl.
      * simpl in Hrej. rewrite app_nil_r in Hrej. congruence.
      * eapply IH; [exact Hrest|exact Htl|].
        by rewrite <- app_assoc.
    + injection Hrun as <- <-.
      destruct t' as [|x t']; simpl in Hsplit; injection Hsplit as <- Htl.
      * simpl in Hrej. rewrite app_nil_r in Hrej. split; [done|congruence].
      * by destruct t'.
  - eapply IH; eauto.
Qed.

(** A call of a document's processing that its service rejects is the
    last call of the processing, which throws the service's error. *)
Lemma processDocument_rejected index indexName doc h t r t' ev t'' e :
  processDocument createDocuments JSON_stringify embeddings index indexName doc h = (t, r) →
  t = t' ++ ev :: t'' →
  rejected embeddings index (h ++ t') ev e →
  t'' = [] ∧ r = Throw e.
Proof.
  unfold processDocument. rewrite bind_call, bind_call.
  destruct (embedDocuments embeddings _ _) as [embeddingsArrays|e0] eqn:Hembed.
  - destruct (upsertLoop _ _ _ _ _ _ _ _ _ _) as [tl r'] eqn:Hloop.
    intros [= <- <-] Hsplit Hrej.
    destruct t' as [|x [|y t']]; simpl in Hsplit.
    + injection Hsplit as <- _. done.
    + injection Hsplit as <- <- _. simpl in Hrej. congruence.
    + injection Hsplit as <- <- Htl.
      eapply upsertLoop_rejected; [exact Hloop|exact Htl|].
      by rewrite <- !app_assoc.
  - intros [= <- <-] Hsplit Hrej.
    destruct t' as [|x [|y t']]; simpl in Hsplit.
    + injection Hsplit as <- _. done.
    + injection Hsplit as <- <- <-. simpl in Hrej. split; [done|congruence].
    + injection Hsplit as _ _ Htl. by destruct t'.
Qed.

Lemma forEachDocument_rejected index indexName docs :
  ∀ h t r t' ev t'' e,
    forEachDocument createDocuments JSON_stringify embeddings index indexName docs h
    = (t, r) →
    t = t' ++ ev :: t'' →
    rejected embeddings index (h ++ t') ev e →
    t'' = [] ∧ r = Throw e.
Proof.
  induction docs as [|doc docs IH]; intros h t r t' ev t'' e Hrun Hsplit Hrej.
  { injection Hrun as <- <-. by destruct t'. }
  cbn [forEachDocument] in Hrun.
  destruct (processDocument createDocuments JSON_stringify embeddings index indexName
              doc h) as [t1 [[]|e0]] eqn:Hdoc.
  - erewrite bind_eq_Ok in Hrun by done.
    destruct (forEachDocument _ _ _ _ _ docs (h ++ t1)) as [t2 r2] eqn:Hrest.
    cbn [fst snd] in Hrun. injection Hrun as <- <-.
    apply app_eq_app in Hsplit as [l [[-> Hl]|[-> Hl]]].
    + destruct l as [|x l]; simpl in Hl.
      * rewrite app_nil_r in *.
        apply (IH _ _ _ [] ev t'' e Hrest); [by rewrite <- Hl|by rewrite app_nil_r].
      * injection Hl as <- _.
        by destruct (processDocument_rejected _ _ _ _ _ _ _ _ _ _ Hdoc eq_refl Hrej).
    + eapply IH; [exact Hrest|exact Hl|by rewrite <- app_assoc].
  - erewrite bind_eq_Throw in Hrun by done. injection Hrun as <- <-.
    by eapply processDocument_rejected.
Qed.

(** An ingestion that throws has gone through the documents before
    some document and has thrown in the processing of that one. *)
Lemma forEachDocument_Throw_inv index indexName docs :
  ∀ h t e,
    forEachDocument createDocuments JSON_stringify embeddings index indexName docs h
    = (t, Throw e) →
    ∃ pre doc post t1 t2,
      docs = pre ++ doc :: post
      ∧ forEachDocument createDocuments JSON_stringify embeddings index indexName pre h
        = (t1, Ok tt)
      ∧ processDocument createDocuments JSON_stringify embeddings index indexName doc
          (h ++ t1) = (t2, Throw e)
      ∧ t = t1 ++ t2.
Proof.
  induction docs as [|doc docs IH]; intros h t e Hrun; [done|].
  cbn [forEachDocument] in Hrun.
  apply bind_Throw in Hrun as [Hdoc|(t1 & [] & t2 & Hdoc & Hrest & ->)].
  - exists [], doc, docs, [], t. by rewrite app_nil_r.
  - apply IH in Hrest as (pre & doc' & post & ta & tb & -> & Hpre & Hdoc' & ->).
    exists (doc :: pre), doc', post, (t1 ++ ta), tb.
    split; [done|]. split; [|split].
    + cbn [forEachDocument]. erewrite bind_eq_Ok by done. by rewrite Hpre.
    + by rewrite app_assoc.
    + by rewrite app_assoc.
Qed.

(** C4: when the embedding service rejects the embedding call of a
    document, or the index rejects one of its upserts, that call is the
    last call the ingestion makes and the ingestion throws the error the
    service gave.  So the call is not made again, and the documents
    after the one being processed are not split, embedded or upserted:
    the calls made are those of the documents before it, which went
    through, and those made for it up to the rejected call, whatever
    documents follow. *)
Theorem failure_aborts_ingestion client indexName docs h t' ev t'' e :
  (updatePinecone createDocuments JSON_stringify embeddings client indexName docs h).1
  = t' ++ ev :: t'' →
  rejected embeddings (Index client indexName) (h ++ t') ev e →
  t'' = []
  ∧ (updatePinecone createDocuments JSON_stringify embeddings client indexName docs h).2
    = Throw e
  ∧ ∃ pre doc post t1 batches,
      docs = pre ++ doc :: post
      ∧ updatePinecone createDocuments JSON_stringify embeddings client indexName pre h
        = (t1, Ok tt)
      ∧ t' ++ [ev]
        = t1 ++ CreateDocuments 1000 [pageContent doc]
             :: EmbedDocuments (map (λ chunk, replaceNewlines (pageContent chunk))
                                  (createDocuments 1000 [pageContent doc]))
             :: map (IndexUpsert indexName) batches
      ∧ ∀ post',
          updatePinecone createDocuments JSON_stringify embeddings client indexName
            (pre ++ doc :: post') h
          = (t' ++ [ev], Throw e).
Proof.
  unfold updatePinecone.
  destruct (forEachDocument _ _ _ _ _ docs h) as [t r] eqn:Hrun.
  cbn [fst snd]. intros Hsplit Hrej.
  destruct (forEachDocument_rejected _ _ _ _ _ _ _ _ _ _ Hrun Hsplit Hrej) as [-> ->].
  split; [done|]. split; [done|]. subst t.
  apply forEachDocument_Throw_inv in Hrun
    as (pre & doc & post & t1 & t2 & -> & Hpre & Hdoc & Ht).
  destruct (processDocument_calls createDocuments JSON_stringify embeddings
              (Index client indexName) indexName doc (h ++ t1)) as [batches Hcalls].
  rewrite Hdoc in Hcalls. cbn [fst] in Hcalls.
  exists pre, doc, post, t1, batches.
  split; [done|]. split; [done|]. split; [by rewrite Ht, Hcalls|].
  intros post'. rewrite Ht. by apply forEachDocument_Throw.
Qed.

End Rejection.

(** ** The pipeline on concrete inputs *)

(** A closed stream after a run that ends normally. *)
Example run_ends_closed :
  runCallbacks streamCallbacks (completionRun ["Hel"; "lo"] Finished) new_TransformStream
  = {| chunks := [encode "Hel"; encode "lo"]; state := Closed |}.
Proof. reflexivity. Qed.

(** An index that is listed is neither created nor waited for. *)
Example existing_index_untouched :
  createPineconeIndex exampleConfig (okClient ["docs"] []) "docs" 1536 []
  = ([ListIndexes], Ok tt).
Proof. reflexivity. Qed.

(** When the embedding service is down nothing is upserted. *)
Example embedding_failure_stops_ingestion :
  updatePinecone charSplitter stringify downEmbeddings (okClient [] []) "docs"
    [textDocument "a.txt" "ab"; textDocument "b.txt" "cd"] []
  = ([CreateDocuments 1000 ["ab"]; EmbedDocuments ["a"; "b"]],
     Throw (ServiceError "embeddings unavailable")).
Proof. reflexivity. Qed.

Example ids_of_three_chunks :
  upsertedIds (updatePinecone charSplitter stringify okEmbeddings (okClient [] []) "docs"
                 [textDocument "a.txt" "abc"] []).1
  = ["a.txt_0"; "a.txt_1"; "a.txt_2"].
Proof. reflexivity. Qed.

Example twelve_chunks_two_batches :
  map length (upsertBatches
    (updatePinecone charSplitter stringify okEmbeddings (okClient [] []) "docs"
       [textDocument "a.txt" "abcdefghijkl"] []).1)
  = [10%nat; 2%nat].
Proof. reflexivity. Qed.

(** A question asked of an index that holds no match. *)
Lemma no_matches_no_stream_witness :
  let '(t, r) :=
    queryPineconeVectorStoreAndQueryLLM okEmbeddings (okClient ["docs"] []) "docs"
      "What is a layout?" [] in
  r = Ok None
  ∧ t = [ EmbedQuery "What is a layout?";
          IndexQuery "docs" {| topK := 10; vector := [0.5%float];
                               includeMetadata := true; includeValues := true |} ]
  ∧ Forall (λ ev, isChainCall ev = false) t.
Proof.
  apply (no_matches_no_stream okEmbeddings (okClient ["docs"] []) "docs"
           "What is a layout?" [] [0.5%float] {| matches := [] |});
    reflexivity.
Defined.

(** A question asked of an index that answers with two matches. *)
Lemma matches_query_llm_witness :
  ∃ llm,
    queryPineconeVectorStoreAndQueryLLM okEmbeddings
      (okClient ["docs"] [matchOf "Layouts wrap pages."; matchOf "They keep state."])
      "docs" "What is a layout?" []
    = ([ EmbedQuery "What is a layout?";
         IndexQuery "docs" {| topK := 10; vector := [0.5%float];
                              includeMetadata := true; includeValues := true |};
         ChainCall llm
           [ {| pageContent := "Layouts wrap pages. They keep state."; metadata := ∅ |} ]
           ("Question: What is a layout?" +:+ String Ascii.Space (String LF
              "                                Condition: End with a URL on where to find more information about the question, only if you know the answer.")) ],
       Ok (Some new_TransformStream))
    ∧ callbacks llm = streamCallbacks.
Proof.
  destruct (matches_query_llm okEmbeddings
              (okClient ["docs"] [matchOf "Layouts wrap pages."; matchOf "They keep state."])
              "docs" "What is a layout?" [] [0.5%float]
              {| matches := [matchOf "Layouts wrap pages."; matchOf "They keep state."] |}
              eq_refl eq_refl ltac:(discriminate))
    as (llm & Hrun & _ & _ & _ & Hcallbacks).
  exists llm. split; [exact Hrun|exact Hcallbacks].
Defined.

(** A request whose completion run fails after two tokens. *)
Lemma stream_terminal_state_witness :
  let run :=
    queryPineconeVectorStoreAndQueryLLM okEmbeddings
      (okClient ["docs"] [matchOf "Layouts wrap pages."]) "docs" "What is a layout?" [] in
  let e := ServiceError "model overloaded" in
  run.2 = Ok (Some new_TransformStream)
  ∧ ∃ t' llm docs prompt,
      run.1 = t' ++ [ChainCall llm docs prompt]
      ∧ state (runCallbacks (callbacks llm) (completionRun ["Lay"; "outs"] (Failed e))
                 new_TransformStream) = Errored e.
Proof.
  intros run e. split; [reflexivity|].
  destruct (stream_terminal_state okEmbeddings
              (okClient ["docs"] [matchOf "Layouts wrap pages."]) "docs"
              "What is a layout?" [] run.1 new_TransformStream ["Lay"; "outs"]
              (Failed e) eq_refl)
    as (t' & llm & docs & prompt & Ht & _ & _ & Hfinal & _).
  exists t', llm, docs, prompt. split; [exact Ht|exact Hfinal].
Defined.

(** Creating an index that the service does not list yet. *)
Lemma create_index_iff_absent_witness :
  listIndexes (okClient ["other"] []) [] = Ok ["other"]
  ∧ createPineconeIndex exampleConfig (okClient ["other"] []) "docs" 1536 []
    = ([ ListIndexes;
         CreateIndex {| name := "docs"; dimension := 1536; metric := "cosine" |};
         SetTimeout 80000 ],
       Ok tt).
Proof.
  split; [reflexivity|].
  pose proof (create_index_iff_absent exampleConfig (okClient ["other"] []) "docs" 1536
                [] ["other"] eq_refl) as H.
  destruct (createPineconeIndex exampleConfig (okClient ["other"] []) "docs" 1536 [])
    as [t r].
  destruct H as (_ & Habsent & _).
  assert ("docs" ∉ ["other"]) as Hnot.
  { intros Hin. apply list_elem_of_singleton in Hin. discriminate. }
  destruct (Habsent Hnot) as [-> ->]. reflexivity.
Defined.

(** Two documents ingested twice in a row. *)
Lemma reingestion_same_ids_witness :
  let docs := [textDocument "a.txt" "abc"; textDocument "b.txt" "de"] in
  let t1 := (updatePinecone charSplitter stringify okEmbeddings (okClient [] []) "docs"
               docs []).1 in
  let t2 := (updatePinecone charSplitter stringify okEmbeddings (okClient [] []) "docs"
               docs t1).1 in
  upsertedIds t1 = ["a.txt_0"; "a.txt_1"; "a.txt_2"; "b.txt_0"; "b.txt_1"]
  ∧ upsertedIds t2 = upsertedIds t1
  ∧ dom (applyUpserts t2 (applyUpserts t1 ∅)) = dom (applyUpserts t1 ∅).
Proof.
  intros docs t1 t2.
  destruct (reingestion_same_ids charSplitter stringify okEmbeddings okEmbeddings
              (okClient [] []) (okClient [] []) "docs" docs [] t1 t1 t2
              eq_refl eq_refl) as (Hids & Hsame & Hdom).
  split; [exact Hids|]. split; [exact Hsame|exact (Hdom ∅)].
Defined.

(** A document of twelve chunks: a full batch and a partial one. *)
Lemma batches_bounded_and_complete_witness :
  let doc := textDocument "a.txt" "abcdefghijkl" in
  let t := (updatePinecone charSplitter stringify okEmbeddings (okClient [] []) "docs"
              ([] ++ doc :: []) []).1 in
  updatePinecone charSplitter stringify okEmbeddings (okClient [] []) "docs"
    ([] ++ doc :: []) [] = (t, Ok tt)
  ∧ Forall (λ batch, 0 < Z.of_nat (length batch) ≤ batchSize) (upsertBatches t)
  ∧ ∃ t1 t2 t3,
      t = t1 ++ t2 ++ t3
      ∧ length (concat (upsertBatches t2)) = 12%nat.
Proof.
  intros doc t. split; [reflexivity|].
  destruct (batches_bounded_and_complete charSplitter stringify okEmbeddings
              (okClient [] []) "docs" [] doc [] [] t) as [Hbound Hcomplete].
  split; [exact Hbound|].
  destruct (Hcomplete eq_refl) as (t1 & t2 & t3 & embs & Ht & _ & _ & _ & Hcat & _).
  exists t1, t2, t3. split; [exact Ht|].
  rewrite Hcat. unfold vectorsOf. rewrite length_imap. reflexivity.
Defined.

(** Three documents, the upsert of the second one rejected. *)
Lemma failure_aborts_ingestion_witness :
  let docs := [textDocument "a.txt" "ab"; textDocument "b.txt" "cd";
               textDocument "c.txt" "ef"] in
  let e := ServiceError "upsert rejected" in
  let run := updatePinecone charSplitter stringify okEmbeddings flakyClient "docs" docs [] in
  let t' := take 5 run.1 in
  let ev := IndexUpsert "docs"
              (vectorsOf stringify (JString "b.txt") [[0.5%float]; [0.5%float]]
                 (charSplitter 1000 ["cd"])) in
  run.1 = t' ++ ev :: []
  ∧ rejected okEmbeddings (Index flakyClient "docs") ([] ++ t') ev e
  ∧ run.2 = Throw e
  ∧ map (λ ev, match ev with CreateDocuments _ texts => texts | _ => [] end) run.1
    = [["ab"]; []; []; ["cd"]; []; []].
Proof.
  intros docs e run t' ev.
  split; [reflexivity|]. split; [reflexivity|]. split; [|reflexivity].
  apply (failure_aborts_ingestion charSplitter stringify okEmbeddings flakyClient "docs"
           docs [] t' ev [] e); reflexivity.
Defined.

(** A document with a chunk that is a line feed. *)
Lemma embedded_text_differs_from_stored_witness :
  let doc := textDocument "a.txt" ("a" +:+ String LF "b") in
  let t := (processDocument charSplitter stringify okEmbeddings (okIndex []) "docs" doc []).1 in
  processDocument charSplitter stringify okEmbeddings (okIndex []) "docs" doc [] = (t, Ok tt)
  ∧ (∃ t', t = CreateDocuments 1000 ["a" +:+ String LF "b"]
                 :: EmbedDocuments ["a"; " "; "b"] :: t')
  ∧ map (λ v, vmetadata v !! "pageContent") (upsertedVectors t)
    = [Some (JString "a"); Some (JString (String LF "")); Some (JString "b")].
Proof.
  intros doc t. split; [reflexivity|].
  destruct (embedded_text_differs_from_stored charSplitter stringify okEmbeddings
              (okIndex []) "docs" doc [] t eq_refl) as (Hsent & _ & _ & _).
  split; [exact Hsent|reflexivity].
Defined.

(** A document of twelve chunks under a configuration that asks for
    batches of three. *)
Lemma batch_size_is_constant_witness :
  let doc := textDocument "a.txt" "abcdefghijkl" in
  let t := (processDocument charSplitter stringify okEmbeddings (okIndex []) "docs" doc []).1 in
  processDocument charSplitter stringify okEmbeddings (okIndex []) "docs" doc [] = (t, Ok tt)
  ∧ cfg_batchSize exampleConfig = 3
  ∧ batchSize = 10
  ∧ batchedBy 10 (upsertBatches t).
Proof.
  intros doc t. split; [reflexivity|]. split; [reflexivity|].
  apply (batch_size_is_constant charSplitter stringify okEmbeddings
           (okIndex []) "docs" doc [] t).
  reflexivity.
Defined.

(** C9, as the specification states it, fails on the code: with a
    configured batch size of 3, a document of five chunks is upserted in
    one batch of five vectors, so the batches are not batches of the
    configured size. *)
Lemma batch_size_not_from_config :
  let doc := textDocument "a.txt" "abcde" in
  let '(t, r) :=
    processDocument charSplitter stringify okEmbeddings (okIndex []) "docs" doc [] in
  r = Ok tt
  ∧ cfg_batchSize exampleConfig = 3
  ∧ map (map id) (upsertBatches t)
    = [["a.txt_0"; "a.txt_1"; "a.txt_2"; "a.txt_3"; "a.txt_4"]]
  ∧ ¬ batchedBy (Z.to_nat (cfg_batchSize exampleConfig)) (upsertBatches t)
  ∧ ¬ batchSizeFromConfig.
Proof.
  simpl. split; [reflexivity|]. split; [reflexivity|]. split; [reflexivity|].
  split.
  - simpl. lia.
  - intros Hclaim.
    specialize (Hclaim exampleConfig charSplitter stringify okEmbeddings (okIndex [])
                  "docs" (textDocument "a.txt" "abcde") [] _ eq_refl).
    simpl in Hclaim. lia.
Qed.

(** ** Further properties of the query orchestration *)

(** X1: when the embedding service rejects the embedding of the
    question, or the index rejects the query, the function throws the
    error the service gave, and the rejected call is the last one it
    made: after a rejected embedding the index is not queried, and in
    neither case is anything sent to the completion service. *)
Theorem query_failure_propagates embeddings client indexName question h e :
  (embedQuery embeddings h question = Throw e
   ∨ ∃ queryEmbedding,
       embedQuery embeddings h question = Ok queryEmbedding
       ∧ query (Index client indexName) (h ++ [EmbedQuery question])
           {| topK := 10; vector := queryEmbedding;
              includeMetadata := true; includeValues := true |} = Throw e) →
  ∃ t,
    queryPineconeVectorStoreAndQueryLLM embeddings client indexName question h
    = (t, Throw e)
    ∧ countCalls isChainCall t = 0%nat
    ∧ match embedQuery embeddings h question with
      | Throw _ => t = [EmbedQuery question]
      | Ok queryEmbedding =>
          t = [ EmbedQuery question;
                IndexQuery indexName
                  {| topK := 10; vector := queryEmbedding;
                     includeMetadata := true; includeValues := true |} ]
      end.
Proof.
  unfold queryPineconeVectorStoreAndQueryLLM. rewrite bind_call.
  intros [Hembed|(queryEmbedding & Hembed & Hquery)]; rewrite Hembed.
  - by exists [EmbedQuery question].
  - rewrite bind_call, Hquery. by eexists.
Qed.

(** X2: whatever the services answer, a query makes the chain call exactly
    when it settles with a stream, and then makes it once. *)
Theorem stream_iff_chain_call embeddings client indexName question h :
  let '(t, r) := queryPineconeVectorStoreAndQueryLLM embeddings client indexName question h in
  countCalls isChainCall t
  = match r with Ok (Some _) => 1%nat | _ => 0%nat end.
Proof.
  unfold queryPineconeVectorStoreAndQueryLLM. rewrite bind_call.
  destruct (embedQuery embeddings h question) as [queryEmbedding|e]; [|reflexivity].
  rewrite bind_call.
  destruct (query (Index client indexName) _ _) as [queryResponse|e]; [|reflexivity].
  destruct (matches queryResponse) as [|m ms]; reflexivity.
Qed.

(** ** Further properties of the index creation *)

(** X3: an index creation that throws has stopped at the service call that
    failed: at the listing, with no creation, or at the creation.  The
    error is the service's, and the function has not waited. *)
Theorem create_failure_propagates config client indexName vectorDimension h t e :
  createPineconeIndex config client indexName vectorDimension h = (t, Throw e) →
  ((t = [ListIndexes] ∧ listIndexes client h = Throw e)
   ∨ ∃ existingIndexes,
       listIndexes client h = Ok existingIndexes
       ∧ (indexName ∉ existingIndexes)
       ∧ t = [ ListIndexes;
               CreateIndex {| name := indexName; dimension := vectorDimension;
                              metric := "cosine" |} ]
       ∧ createIndex client (h ++ [ListIndexes])
           {| name := indexName; dimension := vectorDimension; metric := "cosine" |}
         = Throw e)
  ∧ Forall (λ ev, ∀ ms, ev ≠ SetTimeout ms) t.
Proof.
  unfold createPineconeIndex. rewrite bind_call.
  destruct (listIndexes client h) as [existingIndexes|e'] eqn:Hlist.
  - destruct (includes existingIndexes indexName) eqn:Hinc; cbn [negb]; [done|].
    rewrite bind_call.
    destruct (createIndex client _ _) as [[]|e'] eqn:Hcreate; [done|].
    intros [= <- <-]. split; [|by repeat constructor].
    right. exists existingIndexes. split; [done|]. split; [|done].
    intros Hin. apply includes_elem_of in Hin. congruence.
  - intros [= <- <-]. split; [by left|by repeat constructor].
Qed.

(** An index creation that returns has either found the index listed
    and made no other call, or created it and waited. *)
Lemma createPineconeIndex_Ok config client indexName vectorDimension h t :
  createPineconeIndex config client indexName vectorDimension h = (t, Ok tt) →
  t = [ListIndexes]
  ∨ t = [ ListIndexes;
          CreateIndex {| name := indexName; dimension := vectorDimension;
                         metric := "cosine" |};
          SetTimeout (timeout config) ].
Proof.
  unfold createPineconeIndex. rewrite bind_call.
  destruct (listIndexes client h) as [existingIndexes|e']; [|done].
  destruct (includes existingIndexes indexName); cbn [negb].
  - intros [= <-]. by left.
  - rewrite bind_call. destruct (createIndex client _ _) as [[]|e']; [|done].
    intros [= <-]. by right.
Qed.

(** X4: creating an index twice in a row creates it at most once, provided
    the service lists the index after the first call: the second call
    only lists the indexes, it neither creates nor waits. *)
Theorem create_index_twice config client indexName vectorDimension h t1 existingIndexes :
  createPineconeIndex config client indexName vectorDimension h = (t1, Ok tt) →
  listIndexes client (h ++ t1) = Ok existingIndexes →
  indexName ∈ existingIndexes →
  (createPineconeIndex config client indexName vectorDimension ;;
   createPineconeIndex config client indexName vectorDimension) h
  = (t1 ++ [ListIndexes], Ok tt)
  ∧ (countCalls isCreateIndex (t1 ++ [ListIndexes]) ≤ 1)%nat.
Proof.
  intros Hfirst Hlist Hin. split.
  - erewrite bind_eq_Ok by done.
    unfold createPineconeIndex at 1 2. rewrite bind_call, Hlist.
    apply includes_elem_of in Hin. by rewrite Hin.
  - apply createPineconeIndex_Ok in Hfirst as [->| ->]; unfold countCalls; simpl; lia.
Qed.

(** ** Further properties of the ingestion *)

Section IngestionExtras.

Variable createDocuments : Z → list string → list Document.
Variable JSON_stringify : JSValue → JSValue.

(** X5: whatever the services answer, an ingestion only splits texts with
    chunk size 1000, embeds documents and upserts into the index it was
    given: it never lists or creates an index, never queries, never
    calls the completion chain and never waits. *)
Theorem ingestion_calls_only embeddings client indexName docs h :
  Forall (isIngestionCall indexName)
    (updatePinecone createDocuments JSON_stringify embeddings client indexName docs h).1.
Proof.
  unfold updatePinecone. revert h.
  induction docs as [|doc docs IH]; intros h; [constructor|].
  cbn [forEachDocument].
  destruct (processDocument_calls createDocuments JSON_stringify embeddings
              (Index client indexName) indexName doc h) as [bs Hcalls].
  assert (Forall (isIngestionCall indexName)
            (processDocument createDocuments JSON_stringify embeddings
               (Index client indexName) indexName doc h).1) as Hdoc.
  { rewrite Hcalls. constructor; [done|]. constructor; [done|].
    clear Hcalls. induction bs as [|b bs IHbs]; constructor; done. }
  destruct (processDocument _ _ _ _ _ _ h) as [t1 [[]|e]] eqn:Hrun.
  - erewrite bind_eq_Ok by done. cbn [fst].
    apply Forall_app. split; [done|apply IH].
  - by erewrite bind_eq_Throw.
Qed.

(** X6: ingesting a list of documents in one call does what ingesting its
    first part and then the rest in a second call does, failures
    included. *)
Theorem ingestion_in_two_calls embeddings client indexName pre post h :
  updatePinecone createDocuments JSON_stringify embeddings client indexName (pre ++ post) h
  = (updatePinecone createDocuments JSON_stringify embeddings client indexName pre ;;
     updatePinecone createDocuments JSON_stringify embeddings client indexName post) h.
Proof.
  unfold updatePinecone. revert h.
  induction pre as [|doc pre IH]; intros h.
  - simpl. unfold mbind, Async_bind, bind, mret, Async_ret, ret.
    rewrite app_nil_r. by destruct (forEachDocument _ _ _ _ _ post h).
  - rewrite <- app_comm_cons. cbn [forEachDocument].
    unfold mbind, Async_bind, bind.
    destruct (processDocument _ _ _ _ _ doc h) as [t1 [[]|e]]; [|done].
    rewrite IH. unfold mbind, Async_bind, bind.
    destruct (forEachDocument _ _ _ _ _ pre (h ++ t1)) as [t2 [[]|e]]; [|done].
    rewrite <- app_assoc.
    destruct (forEachDocument _ _ _ _ _ post (h ++ t1 ++ t2)) as [t3 r].
    by rewrite app_assoc.
Qed.

Lemma batchLengths_full (n k : nat) :
  (0 < k)%nat → batchLengths (k + n) k = k :: batchLengths n k.
Proof.
  intros Hk. unfold batchLengths.
  replace (k + n)%nat with (n + 1 * k)%nat by lia.
  rewrite Nat.div_add, Nat.Div0.mod_add by lia.
  by rewrite Nat.add_1_r.
Qed.

Lemma batchedBy_lengths {A} (k : nat) (bs : list (list A)) :
  (0 < k)%nat → batchedBy k bs →
  map length bs = batchLengths (length (concat bs)) k.
Proof.
  intros Hk. induction bs as [|b bs IH].
  { intros _. unfold batchLengths. simpl.
    by rewrite Nat.Div0.div_0_l, Nat.Div0.mod_0_l. }
  destruct bs as [|b' bs].
  - intros Hb. simpl in *. rewrite app_nil_r. unfold batchLengths.
    destruct (decide (length b = k)) as [->|Hne].
    + rewrite Nat.div_same, Nat.Div0.mod_same by lia. done.
    + rewrite Nat.div_small, Nat.mod_small by lia.
      destruct (Nat.eqb_spec (length b) 0); [lia|done].
  - intros [Hb Hbs]. specialize (IH Hbs).
    change (map length (b :: b' :: bs)) with (length b :: map length (b' :: bs)).
    change (concat (b :: b' :: bs)) with (b ++ concat (b' :: bs)).
    rewrite length_app, Hb, IH. by rewrite batchLengths_full.
Qed.

Lemma batchLengths_count (n : nat) :
  length (batchLengths n 10) = ((n + 9) / 10)%nat.
Proof.
  unfold batchLengths. rewrite length_app, length_replicate.
  pose proof (Nat.div_mod_eq n 10) as Hn.
  pose proof (Nat.mod_upper_bound n 10 ltac:(lia)) as Hr.
  destruct (Nat.eqb_spec (n mod 10) 0) as [H0|H0]; cbn [length].
  - apply Nat.div_unique with (r := 9%nat); lia.
  - apply Nat.div_unique with (r := (n mod 10 - 1)%nat); lia.
Qed.

(** X7: the upserts of a document that is processed without failure depend
    on the number [n] of its chunks only: [n / 10] batches of 10 vectors,
    then one batch of [n mod 10] vectors if 10 does not divide [n]; so
    [(n + 9) / 10] upsert calls in all, none for a document without
    chunks. *)
Theorem upsert_batch_sizes embeddings index indexName doc h t :
  processDocument createDocuments JSON_stringify embeddings index indexName doc h
  = (t, Ok tt) →
  let n := length (createDocuments 1000 [pageContent doc]) in
  map length (upsertBatches t) = batchLengths n 10
  ∧ countCalls isIndexUpsert t = ((n + 9) / 10)%nat.
Proof.
  intros Hrun.
  apply processDocument_Ok in Hrun as (embs & bs & _ & -> & Hcat & Hbs).
  rewrite upsertBatches_document.
  assert (map length bs
          = batchLengths (length (createDocuments 1000 [pageContent doc])) 10) as Hlen.
  { rewrite (batchedBy_lengths 10 bs) by (done || lia).
    rewrite Hcat. unfold vectorsOf. by rewrite length_imap. }
  split; [done|].
  rewrite <- batchLengths_count, <- Hlen, length_map.
  unfold countCalls. simpl. clear. induction bs as [|b bs IH]; simpl; by f_equal.
Qed.

Lemma upsertLoop_prefix index indexName txtPath chunks embeddingsArrays rest :
  ∀ idx batch h,
    concat (upsertBatches
              (upsertLoop JSON_stringify index indexName txtPath chunks
                 embeddingsArrays rest idx batch h).1)
    `prefix_of` batch ++ vectorsFrom JSON_stringify txtPath embeddingsArrays idx rest.
Proof.
  induction rest as [|chunk rest IH]; intros idx batch h; [apply prefix_nil|].
  cbn [upsertLoop]. rewrite vectorsFrom_cons.
  destruct (_ || _).
  - rewrite bind_call. destruct (upsert index h _) as [[]|e].
    + specialize (IH (S idx) [] (h ++ [IndexUpsert indexName
                    (batch ++ [mkVector JSON_stringify txtPath embeddingsArrays idx chunk])])).
      destruct (upsertLoop _ _ _ _ _ _ rest (S idx) [] _) as [t' r].
      cbn [fst] in *. change (upsertBatches (IndexUpsert indexName ?b :: t'))
        with (b :: upsertBatches t').
      simpl. rewrite <- app_assoc. apply prefix_app. simpl. by apply prefix_cons.
    + simpl. rewrite app_nil_r.
      apply prefix_app. apply prefix_cons, prefix_nil.
  - specialize (IH (S idx) (batch ++ [mkVector JSON_stringify txtPath embeddingsArrays idx chunk]) h).
    by rewrite <- app_assoc in IH.
Qed.

(** X8: whether a document's processing completes or stops at a rejected
    upsert, the vectors it has sent to the index, in call order, are the
    first records of the document in chunk order: none is skipped, none
    is sent twice, and what was sent before a failure is not taken
    back. *)
Theorem upserts_follow_chunk_order embeddings index indexName doc h embeddingsArrays :
  embedDocuments embeddings (h ++ [CreateDocuments 1000 [pageContent doc]])
    (map (λ chunk, replaceNewlines (pageContent chunk))
       (createDocuments 1000 [pageContent doc]))
  = Ok embeddingsArrays →
  upsertedVectors
    (processDocument createDocuments JSON_stringify embeddings index indexName doc h).1
  `prefix_of` vectorsOf JSON_stringify (getField (metadata doc) "source")
                embeddingsArrays (createDocuments 1000 [pageContent doc]).
Proof.
  intros Hembed. unfold processDocument. rewrite bind_call, bind_call, Hembed.
  match goal with
  | |- context [upsertLoop ?js ?ix ?nm ?tp ?cs ?es ?rest ?i ?b ?h'] =>
      pose proof (upsertLoop_prefix ix nm tp cs es rest i b h') as Hprefix;
      destruct (upsertLoop js ix nm tp cs es rest i b h') as [t' r]
  end.
  exact Hprefix.
Qed.

(** X9: the service's answer is not checked against the number of chunks:
    the record of chunk [i] carries the [i]-th embedding returned, and
    no values at all when fewer embeddings came back; it is upserted all
    the same. *)
Theorem values_by_position embeddings index indexName doc h t :
  processDocument createDocuments JSON_stringify embeddings index indexName doc h
  = (t, Ok tt) →
  ∃ embeddingsArrays,
    embedDocuments embeddings (h ++ [CreateDocuments 1000 [pageContent doc]])
      (map (λ chunk, replaceNewlines (pageContent chunk))
         (createDocuments 1000 [pageContent doc]))
    = Ok embeddingsArrays
    ∧ length (upsertedVectors t) = length (createDocuments 1000 [pageContent doc])
    ∧ ∀ (i : nat) v, upsertedVectors t !! i = Some v → values v = embeddingsArrays !! i.
Proof.
  intros Hrun.
  apply processDocument_Ok in Hrun as (embs & bs & Hembed & -> & Hcat & _).
  exists embs. split; [done|].
  unfold upsertedVectors. rewrite upsertBatches_document, Hcat. unfold vectorsOf.
  split; [by rewrite length_imap|].
  intros i v Hv. rewrite list_lookup_imap in Hv.
  destruct (createDocuments 1000 [pageContent doc] !! i) as [chunk|]; [|done].
  by injection Hv as <-.
Qed.

Lemma mkVector_metadata txtPath embeddingsArrays idx chunk :
  let v := mkVector JSON_stringify txtPath embeddingsArrays idx chunk in
  vmetadata v !! "txtPath" = Some txtPath
  ∧ vmetadata v !! "loc" = Some (JSON_stringify (getField (metadata chunk) "loc"))
  ∧ ∀ key, key ≠ "txtPath" → key ≠ "pageContent" → key ≠ "loc" →
      vmetadata v !! key = metadata chunk !! key.
Proof.
  unfold mkVector. simpl. split; [by simplify_map_eq|]. split; [by simplify_map_eq|].
  intros key H1 H2 H3. by simplify_map_eq.
Qed.

(** X10: the metadata of every record upserted is the metadata of its chunk
    in which three keys are set, whether the chunk had them or not:
    [txtPath] to the document's source, [loc] to the serialised location
    of the chunk, [pageContent] to the chunk's text.  Every other key of
    the chunk is kept with its value, and no other key is added. *)
Theorem record_metadata embeddings index indexName doc h t :
  processDocument createDocuments JSON_stringify embeddings index indexName doc h
  = (t, Ok tt) →
  Forall2
    (λ chunk v,
       vmetadata v !! "txtPath" = Some (getField (metadata doc) "source")
       ∧ vmetadata v !! "loc" = Some (JSON_stringify (getField (metadata chunk) "loc"))
       ∧ vmetadata v !! "pageContent" = Some (JString (pageContent chunk))
       ∧ ∀ key, key ≠ "txtPath" → key ≠ "pageContent" → key ≠ "loc" →
           vmetadata v !! key = metadata chunk !! key)
    (createDocuments 1000 [pageContent doc]) (upsertedVectors t).
Proof.
  intros Hrun.
  apply processDocument_Ok in Hrun as (embs & bs & _ & -> & Hcat & _).
  unfold upsertedVectors. rewrite upsertBatches_document, Hcat.
  rewrite <- vectorsFrom_0. clear Hcat. generalize 0%nat.
  induction (createDocuments 1000 [pageContent doc]) as [|chunk chunks IH];
    intros idx; [constructor|].
  rewrite vectorsFrom_cons. constructor; [|apply IH].
  destruct (mkVector_metadata (getField (metadata doc) "source") embs idx chunk)
    as (Hpath & Hloc & Hrest).
  split; [done|]. split; [done|]. split; [apply mkVector_pageContent|done].
Qed.

(** X11: a document for which the splitter returns no chunk still costs an
    embedding call, made with no text, and makes no upsert; the
    processing fails if that call does. *)
Theorem document_without_chunks embeddings index indexName doc h :
  createDocuments 1000 [pageContent doc] = [] →
  processDocument createDocuments JSON_stringify embeddings index indexName doc h
  = ([CreateDocuments 1000 [pageContent doc]; EmbedDocuments []],
     match embedDocuments embeddings (h ++ [CreateDocuments 1000 [pageContent doc]]) [] with
     | Ok _ => Ok tt
     | Throw e => Throw e
     end).
Proof.
  intros Hnone. unfold processDocument. rewrite bind_call, bind_call, Hnone. simpl.
  by destruct (embedDocuments embeddings _ _).
Qed.

Lemma processDocument_ids embeddings index indexName doc h t :
  processDocument createDocuments JSON_stringify embeddings index indexName doc h
  = (t, Ok tt) →
  upsertedIds t = expectedIds createDocuments doc.
Proof.
  intros Hrun.
  apply processDocument_Ok in Hrun as (embs & bs & _ & -> & Hcat & _).
  unfold upsertedIds, upsertedVectors. rewrite upsertBatches_document, Hcat.
  apply (vectorsFrom_ids _ _ _ _ 0%nat).
Qed.

Lemma expectedIds_NoDup doc : NoDup (expectedIds createDocuments doc).
Proof.
  unfold expectedIds.
  apply (NoDup_fmap_2_strong
           (λ i : nat, toString (getField (metadata doc) "source") +:+ "_" +:+ pretty i));
    [|apply NoDup_seq].
  intros i j _ _ Heq.
  apply (inj (String.app _)) in Heq. apply (inj (String.app _)) in Heq.
  by apply (inj pretty) in Heq.
Qed.

Lemma expectedIds_length doc :
  length (expectedIds createDocuments doc)
  = length (createDocuments 1000 [pageContent doc]).
Proof. unfold expectedIds. by rewrite length_map, length_seq. Qed.

(** X12: the records of one document have pairwise distinct ids: ingested
    into an empty index, a document of [n] chunks leaves [n] records. *)
Theorem distinct_ids_within_document embeddings index indexName doc h t :
  processDocument createDocuments JSON_stringify embeddings index indexName doc h
  = (t, Ok tt) →
  NoDup (upsertedIds t)
  ∧ size (applyUpserts t ∅) = length (createDocuments 1000 [pageContent doc]).
Proof.
  intros Hrun. apply processDocument_ids in Hrun.
  split; [rewrite Hrun; apply expectedIds_NoDup|].
  rewrite <- size_dom, applyUpserts_dom, Hrun, dom_empty_L, (left_id_L ∅ (∪)).
  rewrite size_list_to_set by apply expectedIds_NoDup.
  apply expectedIds_length.
Qed.

Lemma ids_NoDup (src : string) (n : nat) :
  NoDup (map (λ i : nat, src +:+ "_" +:+ pretty i) (seq 0 n)).
Proof.
  apply (NoDup_fmap_2_strong (λ i : nat, src +:+ "_" +:+ pretty i)); [|apply NoDup_seq].
  intros i j _ _ Heq.
  apply (inj (String.app _)) in Heq. apply (inj (String.app _)) in Heq.
  by apply (inj pretty) in Heq.
Qed.

(** Upserting records leaves the keys that are not among their ids as
    they were. *)
Lemma upsert_other_key (vs : list Vector) :
  ∀ (store : gmap string Vector) key,
    key ∉ map id vs →
    foldl (λ store v, <[id v := v]> store) store vs !! key = store !! key.
Proof.
  induction vs as [|v vs IH]; intros store key Hkey; [done|].
  simpl in *. apply not_elem_of_cons in Hkey as [Hne Hkey].
  rewrite IH by done. by rewrite lookup_insert_ne.
Qed.

(** Upserting records with distinct ids leaves each of them under its
    id. *)
Lemma upsert_own_key (vs : list Vector) :
  ∀ (store : gmap string Vector) v,
    NoDup (map id vs) → v ∈ vs →
    foldl (λ store v, <[id v := v]> store) store vs !! id v = Some v.
Proof.
  induction vs as [|x vs IH]; intros store v Hnodup Hv; [by apply elem_of_nil in Hv|].
  simpl in *. apply NoDup_cons in Hnodup as [Hx Hnodup].
  apply elem_of_cons in Hv as [->|Hv].
  - rewrite upsert_other_key by done. by rewrite lookup_insert_eq.
  - by apply IH.
Qed.

(** What an index holds under the id [src_i] after the records of a
    document with source [src] were upserted: the record of chunk [i]
    when the document has one, what it held before otherwise. *)
Lemma upsert_document_lookup txtPath embeddingsArrays (chunks : list Document)
    (store : gmap string Vector) (i : nat) :
  foldl (λ store v, <[id v := v]> store) store
    (vectorsOf JSON_stringify txtPath embeddingsArrays chunks)
  !! (toString txtPath +:+ "_" +:+ pretty i)
  = match chunks !! i with
    | Some chunk => Some (mkVector JSON_stringify txtPath embeddingsArrays i chunk)
    | None => store !! (toString txtPath +:+ "_" +:+ pretty i)
    end.
Proof.
  assert (map id (vectorsOf JSON_stringify txtPath embeddingsArrays chunks)
          = map (λ i : nat, toString txtPath +:+ "_" +:+ pretty i)
              (seq 0 (length chunks))) as Hids.
  { apply (vectorsFrom_ids _ _ _ _ 0%nat). }
  destruct (chunks !! i) as [chunk|] eqn:Hchunk.
  - apply (upsert_own_key _ store (mkVector JSON_stringify txtPath embeddingsArrays i chunk)).
    + rewrite Hids. apply ids_NoDup.
    + apply list_elem_of_lookup. exists i. unfold vectorsOf.
      by rewrite list_lookup_imap, Hchunk.
  - apply upsert_other_key. rewrite Hids.
    rewrite list_elem_of_In, in_map_iff. intros (j & Heq & Hj).
    apply (inj (String.app _)) in Heq. apply (inj (String.app _)) in Heq.
    apply (inj pretty) in Heq. subst j.
    apply in_seq in Hj. apply lookup_ge_None in Hchunk. lia.
Qed.

Lemma applyUpserts_app (t1 t2 : list Event) (store : gmap string Vector) :
  applyUpserts (t1 ++ t2) store = applyUpserts t2 (applyUpserts t1 store).
Proof.
  unfold applyUpserts, upsertedVectors.
  by rewrite upsertBatches_app, concat_app, foldl_app.
Qed.

Lemma processDocument_vectors embeddings index indexName doc h t :
  processDocument createDocuments JSON_stringify embeddings index indexName doc h
  = (t, Ok tt) →
  ∃ embeddingsArrays,
    embedDocuments embeddings (h ++ [CreateDocuments 1000 [pageContent doc]])
      (map (λ chunk, replaceNewlines (pageContent chunk))
         (createDocuments 1000 [pageContent doc]))
    = Ok embeddingsArrays
    ∧ upsertedVectors t
      = vectorsOf JSON_stringify (getField (metadata doc) "source") embeddingsArrays
          (createDocuments 1000 [pageContent doc]).
Proof.
  intros Hrun.
  apply processDocument_Ok in Hrun as (embs & bs & Hembed & -> & Hcat & _).
  exists embs. split; [done|].
  unfold upsertedVectors. by rewrite upsertBatches_document.
Qed.

(** X13: two documents with the same source share their ids.  After
    both were ingested, one after the other, the index holds under
    [source_i] the record of chunk [i] of the second document for every
    chunk the second document has: the record the first document left
    there is replaced.  For the indexes that only the first document
    reaches, the index still holds the first document's record, so the
    end of a longer first document survives the ingestion of a shorter
    second one.  Under the other ids of that form the index is as it
    was. *)
Theorem same_source_overwrites embeddings client indexName doc1 doc2 h t :
  updatePinecone createDocuments JSON_stringify embeddings client indexName [doc1; doc2] h
  = (t, Ok tt) →
  toString (getField (metadata doc1) "source")
  = toString (getField (metadata doc2) "source") →
  ∃ t1 embeddingsArrays1 embeddingsArrays2,
    embedDocuments embeddings (h ++ [CreateDocuments 1000 [pageContent doc1]])
      (map (λ chunk, replaceNewlines (pageContent chunk))
         (createDocuments 1000 [pageContent doc1]))
    = Ok embeddingsArrays1
    ∧ processDocument createDocuments JSON_stringify embeddings (Index client indexName)
        indexName doc1 h = (t1, Ok tt)
    ∧ embedDocuments embeddings (h ++ t1 ++ [CreateDocuments 1000 [pageContent doc2]])
        (map (λ chunk, replaceNewlines (pageContent chunk))
           (createDocuments 1000 [pageContent doc2]))
      = Ok embeddingsArrays2
    ∧ ∀ (store : gmap string Vector) (i : nat),
        applyUpserts t store
        !! (toString (getField (metadata doc2) "source") +:+ "_" +:+ pretty i)
        = match createDocuments 1000 [pageContent doc2] !! i,
                createDocuments 1000 [pageContent doc1] !! i with
          | Some chunk, _ =>
              Some (mkVector JSON_stringify (getField (metadata doc2) "source")
                      embeddingsArrays2 i chunk)
          | None, Some chunk =>
              Some (mkVector JSON_stringify (getField (metadata doc1) "source")
                      embeddingsArrays1 i chunk)
          | None, None =>
              store !! (toString (getField (metadata doc2) "source") +:+ "_" +:+ pretty i)
          end.
Proof.
  unfold updatePinecone. intros Hrun Hsrc.
  apply forEachDocument_cons in Hrun as (t1 & t23 & Hdoc1 & Hrun & ->).
  apply forEachDocument_cons in Hrun as (t2 & t3 & Hdoc2 & Hnil & ->).
  injection Hnil as <-. rewrite app_nil_r.
  destruct (processDocument_vectors _ _ _ _ _ _ Hdoc1) as (embs1 & Hembed1 & Hvs1).
  destruct (processDocument_vectors _ _ _ _ _ _ Hdoc2) as (embs2 & Hembed2 & Hvs2).
  exists t1, embs1, embs2. split; [done|]. split; [done|].
  split; [by rewrite app_assoc|].
  intros store i. rewrite applyUpserts_app.
  unfold applyUpserts at 1. rewrite Hvs2, upsert_document_lookup.
  destruct (createDocuments 1000 [pageContent doc2] !! i) as [chunk|]; [done|].
  unfold applyUpserts. rewrite Hvs1, <- Hsrc. apply upsert_document_lookup.
Qed.

Lemma countCalls_app (p : Event → bool) (t1 t2 : list Event) :
  countCalls p (t1 ++ t2) = (countCalls p t1 + countCalls p t2)%nat.
Proof. unfold countCalls. by rewrite List.filter_app, length_app. Qed.

(** X14: a complete ingestion makes one embedding call per document, however
    many chunks the documents have. *)
Theorem one_embedding_call_per_document embeddings client indexName docs :
  ∀ h t,
    updatePinecone createDocuments JSON_stringify embeddings client indexName docs h
    = (t, Ok tt) →
    countCalls isEmbedDocuments t = length docs.
Proof.
  unfold updatePinecone. induction docs as [|doc docs IH]; intros h t Hrun.
  - by injection Hrun as <-.
  - apply forEachDocument_cons in Hrun as (t1 & t2 & Hdoc & Hrest & ->).
    apply processDocument_Ok in Hdoc as (embs & bs & _ & -> & _ & _).
    rewrite countCalls_app, (IH _ _ Hrest). simpl. f_equal.
    unfold countCalls. simpl. clear. by induction bs.
Qed.

End IngestionExtras.

(** *** Record ids *)

Lemma list_ascii_of_string_app (s1 s2 : string) :
  String.list_ascii_of_string (s1 +:+ s2)
  = String.list_ascii_of_string s1 ++ String.list_ascii_of_string s2.
Proof. induction s1 as [|c s1 IH]; [done|]. simpl. by rewrite IH. Qed.

Lemma pretty_N_go_no_underscore (x : N) :
  ∀ s, underscore ∉ String.list_ascii_of_string s →
       underscore ∉ String.list_ascii_of_string (pretty_N_go x s).
Proof.
  induction (N.lt_wf_0 x) as [x _ IH]; intros s Hs.
  assert (x = 0 ∨ 0 < x)%N as [->|Hpos] by lia; [by rewrite pretty_N_go_0|].
  rewrite pretty_N_go_step by done. apply IH; [by apply N.div_lt|].
  simpl. apply not_elem_of_cons. split; [|done].
  unfold pretty_N_char. by repeat case_match.
Qed.

(** The decimal form of a chunk index holds no underscore. *)
Lemma pretty_nat_no_underscore (n : nat) :
  underscore ∉ String.list_ascii_of_string (pretty n).
Proof.
  unfold pretty, pretty_nat, pretty, pretty_N. case_decide.
  - simpl. apply not_elem_of_cons. split; [done|apply not_elem_of_nil].
  - apply pretty_N_go_no_underscore. apply not_elem_of_nil.
Qed.

(** Splitting a list at the last occurrence of [c]. *)
Lemma split_at_last {A} (c : A) (l1 l2 r1 r2 : list A) :
  l1 ++ c :: r1 = l2 ++ c :: r2 → c ∉ r1 → c ∉ r2 → l1 = l2 ∧ r1 = r2.
Proof.
  revert l2. induction l1 as [|a l1 IH]; intros [|b l2] Heq Hr1 Hr2; simpl in Heq.
  - by injection Heq.
  - injection Heq as <- ->. destruct Hr1. apply elem_of_app. right. by left.
  - injection Heq as -> <-. destruct Hr2. apply elem_of_app. right. by left.
  - injection Heq as <- Heq. destruct (IH _ Heq Hr1 Hr2) as [-> ->]. done.
Qed.

(** X15: the id of a record tells the source it was made for (as the text
    interpolated in the id) and the index of its chunk: records share
    an id only if they come from documents with the same source and from
    chunks at the same position, also when the sources themselves hold
    underscores or digits. *)
Theorem id_identifies_chunk JSON_stringify txtPath1 txtPath2 embeddings1 embeddings2
    (idx1 idx2 : nat) chunk1 chunk2 :
  id (mkVector JSON_stringify txtPath1 embeddings1 idx1 chunk1)
  = id (mkVector JSON_stringify txtPath2 embeddings2 idx2 chunk2) →
  toString txtPath1 = toString txtPath2 ∧ idx1 = idx2.
Proof.
  unfold mkVector. simpl. intros Heq.
  apply (f_equal String.list_ascii_of_string) in Heq.
  rewrite !list_ascii_of_string_app in Heq. simpl in Heq.
  apply (split_at_last underscore) in Heq as [Hsrc Hidx];
    [|apply pretty_nat_no_underscore..].
  split.
  - rewrite <- (String.string_of_list_ascii_of_string (toString txtPath1)), Hsrc.
    apply String.string_of_list_ascii_of_string.
  - apply (inj pretty).
    rewrite <- (String.string_of_list_ascii_of_string (pretty idx1)), Hidx.
    apply String.string_of_list_ascii_of_string.
Qed.

(** *** Texts *)

Lemma replaceNewlines_fixed (s : string) :
  LF ∉ String.list_ascii_of_string s → replaceNewlines s = s.
Proof.
  induction s as [|c s IH]; [done|]. simpl. intros Hnot.
  apply not_elem_of_cons in Hnot as [Hc Hs]. rewrite IH by done.
  destruct (Ascii.eqb_spec c LF); [by subst|done].
Qed.

Lemma replaceNewlines_no_LF (s : string) :
  LF ∉ String.list_ascii_of_string (replaceNewlines s).
Proof.
  induction s as [|c s IH]; [apply not_elem_of_nil|].
  simpl. apply not_elem_of_cons. split; [|done].
  destruct (Ascii.eqb_spec c LF); [by vm_compute|congruence].
Qed.

(** X16: the text sent for embedding has the length of the chunk's text and
    holds no line feed; a text without line feed is sent unchanged, so
    replacing line feeds a second time changes nothing. *)
Theorem replaceNewlines_normalises (s : string) :
  String.length (replaceNewlines s) = String.length s
  ∧ (LF ∉ String.list_ascii_of_string (replaceNewlines s))
  ∧ (LF ∉ String.list_ascii_of_string s → replaceNewlines s = s)
  ∧ replaceNewlines (replaceNewlines s) = replaceNewlines s.
Proof.
  split.
  { induction s as [|c s IH]; [done|]. simpl. by rewrite IH. }
  split; [apply replaceNewlines_no_LF|]. split; [apply replaceNewlines_fixed|].
  apply replaceNewlines_fixed, replaceNewlines_no_LF.
Qed.

(** Every query starts with the embedding of the question as given. *)
Lemma query_embeds_question embeddings client indexName question h :
  ∃ t', (queryPineconeVectorStoreAndQueryLLM embeddings client indexName question h).1
        = EmbedQuery question :: t'.
Proof.
  unfold queryPineconeVectorStoreAndQueryLLM. rewrite bind_call.
  destruct (embedQuery embeddings h question); [|by eexists].
  rewrite bind_call. destruct (query _ _ _); [|by eexists].
  destruct (negb _); by eexists.
Qed.

(** X17: a question is embedded as it is, while the chunks were embedded
    with their line feeds replaced: asking the very text of a chunk that
    holds a line feed embeds a text other than the one embedded for the
    chunk at ingestion. *)
Theorem question_not_normalised createDocuments JSON_stringify embeddings client index
    indexName doc chunk h h' :
  chunk ∈ createDocuments 1000 [pageContent doc] →
  LF ∈ String.list_ascii_of_string (pageContent chunk) →
  ∃ texts t t',
    (processDocument createDocuments JSON_stringify embeddings index indexName doc h).1
    = CreateDocuments 1000 [pageContent doc] :: EmbedDocuments texts :: t
    ∧ (queryPineconeVectorStoreAndQueryLLM embeddings client indexName
         (pageContent chunk) h').1
      = EmbedQuery (pageContent chunk) :: t'
    ∧ replaceNewlines (pageContent chunk) ∈ texts
    ∧ pageContent chunk ∉ texts.
Proof.
  intros Hchunk Hlf.
  destruct (processDocument_calls createDocuments JSON_stringify embeddings index
              indexName doc h) as [bs Hcalls].
  destruct (query_embeds_question embeddings client indexName (pageContent chunk) h')
    as [t' Hquery].
  eexists _, _, t'. split; [exact Hcalls|]. split; [exact Hquery|].
  split.
  - apply list_elem_of_In, in_map_iff. exists chunk. by rewrite <- list_elem_of_In.
  - intros Hin. apply list_elem_of_In, in_map_iff in Hin as (c & Heq & _).
    pose proof (replaceNewlines_no_LF (pageContent c)) as Hnone.
    rewrite Heq in Hnone. done.
Qed.

(** *** The streamed text *)

Lemma encode_app (s1 s2 : string) : encode (s1 +:+ s2) = encode s1 ++ encode s2.
Proof.
  unfold encode, String.list_byte_of_string.
  by rewrite list_ascii_of_string_app, map_app.
Qed.

(** X18: read as one sequence of bytes, the chunks of a run are the encoding
    of the tokens put end to end: the reader of the stream receives the
    text of the completion, whatever way it was cut into tokens. *)
Theorem streamed_text_is_concatenation (tokens : list string) (outcome : Outcome) :
  concat (chunks (runCallbacks streamCallbacks (completionRun tokens outcome)
                    new_TransformStream))
  = encode (foldr String.app "" tokens).
Proof.
  rewrite runCallbacks_run. simpl.
  induction tokens as [|token tokens IH]; [done|].
  simpl. by rewrite encode_app, IH.
Qed.

(** ** The further properties on concrete inputs *)

(** A question asked while the index rejects queries. *)
Lemma query_failure_propagates_witness :
  let e := ServiceError "index unavailable" in
  embedQuery okEmbeddings [] "What is a layout?" = Ok [0.5%float]
  ∧ query (Index downClient "docs") ([] ++ [EmbedQuery "What is a layout?"])
      {| topK := 10; vector := [0.5%float];
         includeMetadata := true; includeValues := true |} = Throw e
  ∧ ∃ t,
      queryPineconeVectorStoreAndQueryLLM okEmbeddings downClient "docs"
        "What is a layout?" [] = (t, Throw e)
      ∧ countCalls isChainCall t = 0%nat
      ∧ length t = 2%nat.
Proof.
  intros e. split; [reflexivity|]. split; [reflexivity|].
  destruct (query_failure_propagates okEmbeddings downClient "docs" "What is a layout?"
              [] e) as (t & Hrun & Hnone & Ht).
  { right. exists [0.5%float]. split; reflexivity. }
  exists t. split; [exact Hrun|]. split; [exact Hnone|].
  simpl in Ht. rewrite Ht. reflexivity.
Defined.

(** An index creation while the index service is down. *)
Lemma create_failure_propagates_witness :
  let e := ServiceError "index unavailable" in
  createPineconeIndex exampleConfig downClient "docs" 1536 [] = ([ListIndexes], Throw e)
  ∧ Forall (λ ev, ∀ ms, ev ≠ SetTimeout ms) [ListIndexes].
Proof.
  intros e. split; [reflexivity|].
  apply (create_failure_propagates exampleConfig downClient "docs" 1536 [] [ListIndexes] e
           eq_refl).
Defined.

(** An index created, then asked for again, on a service that lists
    what was created. *)
Lemma create_index_twice_witness :
  (createPineconeIndex exampleConfig registryClient "docs" 1536 ;;
   createPineconeIndex exampleConfig registryClient "docs" 1536) []
  = ([ ListIndexes;
       CreateIndex {| name := "docs"; dimension := 1536; metric := "cosine" |};
       SetTimeout 80000;
       ListIndexes ],
     Ok tt).
Proof.
  apply (create_index_twice exampleConfig registryClient "docs" 1536 []
           [ ListIndexes;
             CreateIndex {| name := "docs"; dimension := 1536; metric := "cosine" |};
             SetTimeout 80000 ]
           ["docs"] eq_refl eq_refl).
  apply list_elem_of_In. simpl. auto.
Defined.

(** A document of twenty-three chunks. *)
Lemma upsert_batch_sizes_witness :
  let doc := textDocument "a.txt" "abcdefghijklmnopqrstuvw" in
  let t := (processDocument charSplitter stringify okEmbeddings (okIndex []) "docs" doc []).1 in
  processDocument charSplitter stringify okEmbeddings (okIndex []) "docs" doc [] = (t, Ok tt)
  ∧ map length (upsertBatches t) = [10%nat; 10%nat; 3%nat]
  ∧ countCalls isIndexUpsert t = 3%nat.
Proof.
  intros doc t. split; [reflexivity|].
  apply (upsert_batch_sizes charSplitter stringify okEmbeddings (okIndex []) "docs" doc [] t
           eq_refl).
Defined.

(** Twelve chunks, the second upsert rejected: the ten records of the
    first batch and the two of the rejected one were sent, in order. *)
Lemma upserts_follow_chunk_order_witness :
  let doc := textDocument "a.txt" "abcdefghijkl" in
  let run := processDocument charSplitter stringify okEmbeddings flakyIndex "docs" doc [] in
  run.2 = Throw (ServiceError "upsert rejected")
  ∧ map length (upsertBatches run.1) = [10%nat; 2%nat]
  ∧ upsertedVectors run.1
    `prefix_of` vectorsOf stringify (JString "a.txt")
                  (map (λ _, [0.5%float]) (charSplitter 1000 ["abcdefghijkl"]))
                  (charSplitter 1000 ["abcdefghijkl"]).
Proof.
  intros doc run. split; [reflexivity|]. split; [reflexivity|].
  apply (upserts_follow_chunk_order charSplitter stringify okEmbeddings flakyIndex "docs"
           doc [] _ eq_refl).
Defined.

(** Three chunks and a service that returns one embedding: the second
    and third records are upserted without values. *)
Lemma values_by_position_witness :
  let doc := textDocument "a.txt" "abc" in
  let t := (processDocument charSplitter stringify shortEmbeddings (okIndex []) "docs" doc []).1 in
  processDocument charSplitter stringify shortEmbeddings (okIndex []) "docs" doc []
  = (t, Ok tt)
  ∧ map values (upsertedVectors t) = [Some [0.5%float]; None; None]
  ∧ ∃ embeddingsArrays : list Embedding,
      length (upsertedVectors t) = 3%nat
      ∧ ∀ (i : nat) v, upsertedVectors t !! i = Some v → values v = embeddingsArrays !! i.
Proof.
  intros doc t. split; [reflexivity|]. split; [reflexivity|].
  destruct (values_by_position charSplitter stringify shortEmbeddings (okIndex []) "docs"
              doc [] t eq_refl) as (embs & _ & Hlen & Hvalues).
  exists embs. split; [exact Hlen|exact Hvalues].
Defined.

(** The metadata of the record of a one-chunk document. *)
Lemma record_metadata_witness :
  let doc := textDocument "a.txt" "a" in
  let t := (processDocument charSplitter stringify okEmbeddings (okIndex []) "docs" doc []).1 in
  processDocument charSplitter stringify okEmbeddings (okIndex []) "docs" doc [] = (t, Ok tt)
  ∧ map (λ v, (vmetadata v !! "txtPath", vmetadata v !! "pageContent",
               vmetadata v !! "source"))
      (upsertedVectors t)
    = [(Some (JString "a.txt"), Some (JString "a"), None)]
  ∧ Forall2 (λ chunk v, vmetadata v !! "txtPath" = Some (JString "a.txt"))
      (charSplitter 1000 ["a"]) (upsertedVectors t).
Proof.
  intros doc t. split; [reflexivity|]. split; [reflexivity|].
  eapply Forall2_impl;
    [apply (record_metadata charSplitter stringify okEmbeddings (okIndex []) "docs"
              doc [] t eq_refl)|].
  intros chunk v (Hpath & _). exact Hpath.
Defined.

(** An empty document while the embedding service is down. *)
Lemma document_without_chunks_witness :
  processDocument charSplitter stringify downEmbeddings (okIndex []) "docs"
    (textDocument "a.txt" "") []
  = ([CreateDocuments 1000 [""]; EmbedDocuments []],
     Throw (ServiceError "embeddings unavailable")).
Proof.
  apply (document_without_chunks charSplitter stringify downEmbeddings (okIndex []) "docs"
           (textDocument "a.txt" "") [] eq_refl).
Defined.

(** Three chunks, three records. *)
Lemma distinct_ids_within_document_witness :
  let doc := textDocument "a.txt" "abc" in
  let t := (processDocument charSplitter stringify okEmbeddings (okIndex []) "docs" doc []).1 in
  processDocument charSplitter stringify okEmbeddings (okIndex []) "docs" doc [] = (t, Ok tt)
  ∧ NoDup (upsertedIds t)
  ∧ size (applyUpserts t ∅) = 3%nat.
Proof.
  intros doc t. split; [reflexivity|].
  apply (distinct_ids_within_document charSplitter stringify okEmbeddings (okIndex [])
           "docs" doc [] t eq_refl).
Defined.

(** Two documents read from the same file, of three chunks and then of
    two: the first two records are the second document's, the third is
    still the first document's. *)
Lemma same_source_overwrites_witness :
  let doc1 := textDocument "a.txt" "abc" in
  let doc2 := textDocument "a.txt" "de" in
  let t := (updatePinecone charSplitter stringify okEmbeddings (okClient [] []) "docs"
              [doc1; doc2] []).1 in
  updatePinecone charSplitter stringify okEmbeddings (okClient [] []) "docs"
    [doc1; doc2] [] = (t, Ok tt)
  ∧ map (λ key, v ← applyUpserts t ∅ !! key; vmetadata v !! "pageContent")
      ["a.txt_0"; "a.txt_1"; "a.txt_2"; "a.txt_3"]
    = [Some (JString "d"); Some (JString "e"); Some (JString "c"); None]
  ∧ ∃ embeddingsArrays1 : list Embedding,
      ∀ chunk, charSplitter 1000 ["abc"] !! 2%nat = Some chunk →
        applyUpserts t ∅ !! "a.txt_2"
        = Some (mkVector stringify (JString "a.txt") embeddingsArrays1 2 chunk).
Proof.
  intros doc1 doc2 t. split; [reflexivity|]. split; [reflexivity|].
  destruct (same_source_overwrites charSplitter stringify okEmbeddings (okClient [] [])
              "docs" doc1 doc2 [] t eq_refl eq_refl)
    as (t1 & embs1 & embs2 & _ & _ & _ & Hlookup).
  exists embs1. intros chunk Hchunk.
  simpl in Hchunk. injection Hchunk as <-. exact (Hlookup ∅ 2%nat).
Defined.

(** Two documents, two embedding calls. *)
Lemma one_embedding_call_per_document_witness :
  let docs := [textDocument "a.txt" "abcdefghijkl"; textDocument "b.txt" ""] in
  let t := (updatePinecone charSplitter stringify okEmbeddings (okClient [] []) "docs"
              docs []).1 in
  updatePinecone charSplitter stringify okEmbeddings (okClient [] []) "docs" docs []
  = (t, Ok tt)
  ∧ countCalls isEmbedDocuments t = 2%nat.
Proof.
  intros docs t. split; [reflexivity|].
  apply (one_embedding_call_per_document charSplitter stringify okEmbeddings
           (okClient [] []) "docs" docs [] t eq_refl).
Defined.

(** Records with the same id, built with different embeddings. *)
Lemma id_identifies_chunk_witness :
  let chunk := textDocument "" "x" in
  id (mkVector stringify (JString "notes_1") [] 0 chunk) = "notes_1_0"
  ∧ toString (JString "notes_1") = toString (JString "notes_1") ∧ 0%nat = 0%nat.
Proof.
  intros chunk. split; [reflexivity|].
  apply (id_identifies_chunk stringify (JString "notes_1") (JString "notes_1")
           [] [[0.5%float]] 0 0 chunk chunk eq_refl).
Defined.

(** A chunk that is a line feed, asked again as a question. *)
Lemma question_not_normalised_witness :
  let doc := textDocument "a.txt" (String LF "") in
  let chunk := {| pageContent := String LF "";
                  metadata := {[ "loc" := JObject [("lines",
                                   JObject [("from", JNumber 1); ("to", JNumber 1)])] ]} |} in
  ∃ texts t t',
    (processDocument charSplitter stringify okEmbeddings (okIndex []) "docs" doc []).1
    = CreateDocuments 1000 [pageContent doc] :: EmbedDocuments texts :: t
    ∧ (queryPineconeVectorStoreAndQueryLLM okEmbeddings (okClient [] []) "docs"
         (pageContent chunk) []).1
      = EmbedQuery (pageContent chunk) :: t'
    ∧ replaceNewlines (pageContent chunk) ∈ texts
    ∧ pageContent chunk ∉ texts.
Proof.
  intros doc chunk.
  apply (question_not_normalised charSplitter stringify okEmbeddings (okClient [] [])
           (okIndex []) "docs" doc chunk [] []).
  - apply list_elem_of_In. simpl. left. reflexivity.
  - apply list_elem_of_In. simpl. left. reflexivity.
Defined.
